(** * SPI, the Simple Pascal Interpreter: a shallow embedding of [spi.py]

    The program reads one line of text, splits it into tokens ([Lexer]),
    builds a tree by recursive descent ([Parser]) and walks the tree
    ([Interpreter]).  The embedding follows the three classes method by
    method.

    Modelling conventions.
    - A Python [str] is a Rocq [string]; one [ascii] is one code point
      below 256 (the Latin-1 range).  [isspace] and [isdigit] are the
      restrictions of [str.isspace] and [str.isdigit] to that range.
    - A Python [int] is a [Z].
    - A raised exception is the [Raise] outcome of the [res] monad; the
      exception carries its class and, for the bare [Exception]s the
      program raises itself, its message.
    - Every [while] loop and the recursion of the parser run on a [nat]
      of fuel; [NoFuel] is the outcome of a run that was cut short.  The
      entry points compute the fuel from the length of the text, and
      [evaluate_terminates] shows that this amount always suffices.
    - The parser is written over any source of tokens ([TokenSource]):
      it uses its lexer through [get_next_token] alone.  The lexer of the
      program is one instance; a lexer over the list of characters still
      to be read is another, and the first is shown to refine the second
      ([get_next_token_lex], [evaluate_with_run]).
    - Limits of the host interpreter (the recursion limit, the cap on the
      number of digits [int] accepts) are not part of the model. *)

From Stdlib Require Import ZArith List String Ascii Bool Arith Lia.
From Stdlib Require Import Decimal DecimalString DecimalN DecimalPos DecimalFacts.
Import ListNotations.

Local Open Scope string_scope.

(** ** Outcomes *)

(** The exceptions a run can end with.  [Exception msg] is
    [Exception(msg)], the class the program raises by hand; the others
    are raised by the language itself ([text[0]], [int(...)], [//] and
    arithmetic on operands that are not numbers). *)
Inductive exn : Type :=
| IndexError
| ValueError
| ZeroDivisionError
| TypeError
| Exception (msg : string).

Inductive res (A : Type) : Type :=
| Ok (a : A)
| Raise (e : exn)
| NoFuel.

Arguments Ok {A} a.
Arguments Raise {A} e.
Arguments NoFuel {A}.

Definition bind {A B : Type} (m : res A) (k : A -> res B) : res B :=
  match m with
  | Ok a => k a
  | Raise e => Raise e
  | NoFuel => NoFuel
  end.

Notation "x <- m ;; k" := (bind m (fun x => k))
  (at level 61, m at next level, right associativity).
Notation "' p <- m ;; k" := (bind m (fun x => let p := x in k))
  (at level 61, p pattern, m at next level, right associativity).

(** [ZeroDivisionError] is a subclass of [ArithmeticError]; the other
    classes are not. *)
Definition is_ArithmeticError (e : exn) : bool :=
  match e with
  | ZeroDivisionError => true
  | _ => false
  end.

(** ** Characters *)

(** [str.isspace] on code points below 256: tab to carriage return, the
    four separators 0x1c-0x1f, the space, NEL (0x85) and the no-break
    space (0xa0). *)
Definition isspace (c : ascii) : bool :=
  let n := nat_of_ascii c in
  (((9 <=? n) && (n <=? 13)) || ((28 <=? n) && (n <=? 32))
   || (n =? 133) || (n =? 160))%nat.

(** The decimal digits ['0'] to ['9']. *)
Definition is_decimal (c : ascii) : bool :=
  let n := nat_of_ascii c in ((48 <=? n) && (n <=? 57))%nat.

(** [str.isdigit] on code points below 256: the decimal digits and the
    superscripts two, three and one (0xb2, 0xb3, 0xb9). *)
Definition isdigit (c : ascii) : bool :=
  let n := nat_of_ascii c in
  (is_decimal c || (n =? 178) || (n =? 179) || (n =? 185))%nat.

(** [int(s)] on a string: [s] read in base ten.  The empty string and a
    string with a character that is not a decimal digit raise
    [ValueError].  (The lexer only passes runs of [isdigit] characters, so
    signs, underscores and blanks, which [int] also accepts, never
    occur.) *)
Fixpoint int_acc (s : string) (acc : Z) : res Z :=
  match s with
  | EmptyString => Ok acc
  | String c s' =>
      if is_decimal c
      then int_acc s' (10 * acc + Z.of_nat (nat_of_ascii c - 48))%Z
      else Raise ValueError
  end.

Definition int (s : string) : res Z :=
  match s with
  | EmptyString => Raise ValueError
  | _ => int_acc s 0%Z
  end.

(** ** Tokens *)

(** The eight token types (line 17); the program names them by strings. *)
Inductive TokenType : Type :=
| INTEGER | PLUS | MINUS | MUL | DIV | LPAREN | RPAREN | EOF.

Definition TokenType_eqb (a b : TokenType) : bool :=
  match a, b with
  | INTEGER, INTEGER | PLUS, PLUS | MINUS, MINUS | MUL, MUL
  | DIV, DIV | LPAREN, LPAREN | RPAREN, RPAREN | EOF, EOF => true
  | _, _ => false
  end.

(** What a token or a visit can hold: an [int], a [str] or [None]. *)
Inductive Value : Type :=
| VInt (z : Z)
| VStr (s : string)
| VNone.

Record Token : Type := mkToken { type : TokenType; value : Value }.

(** ** Lexer *)

Record Lexer : Type := mkLexer {
  text : string;
  pos : nat;
  current_char : option ascii  (* [None] indicates end of input *)
}.

(** [Lexer.__init__]: [self.text[self.pos]] with [pos = 0] raises
    [IndexError] on the empty string. *)
Definition Lexer_init (text : string) : res Lexer :=
  match String.get 0 text with
  | Some c => Ok (mkLexer text 0 (Some c))
  | None => Raise IndexError
  end.

Definition Lexer_error {A : Type} : res A :=
  Raise (Exception "Invalid character").

(** [Lexer.advance].  In the [else] branch the index is in range, so
    [String.get] returns the character. *)
Definition advance (l : Lexer) : Lexer :=
  let pos' := pos l + 1 in
  if (Z.of_nat (String.length (text l)) - 1 <? Z.of_nat pos')%Z
  then mkLexer (text l) pos' None
  else mkLexer (text l) pos' (String.get pos' (text l)).

(** Fuel that covers any loop over the text of [l]. *)
Definition lexer_fuel (l : Lexer) : nat := 2 + String.length (text l).

Fixpoint skip_whitespace_loop (fuel : nat) (l : Lexer) : res Lexer :=
  match fuel with
  | O => NoFuel
  | S fuel' =>
      match current_char l with
      | Some c =>
          if isspace c then skip_whitespace_loop fuel' (advance l) else Ok l
      | None => Ok l
      end
  end.

Definition skip_whitespace (l : Lexer) : res Lexer :=
  skip_whitespace_loop (lexer_fuel l) l.

Fixpoint integer_loop (fuel : nat) (result : string) (l : Lexer)
  : res (string * Lexer) :=
  match fuel with
  | O => NoFuel
  | S fuel' =>
      match current_char l with
      | Some c =>
          if isdigit c
          then integer_loop fuel' (result ++ String c EmptyString) (advance l)
          else Ok (result, l)
      | None => Ok (result, l)
      end
  end.

(** [Lexer.integer]: the digits collected, then [int(result)]. *)
Definition integer (l : Lexer) : res (Z * Lexer) :=
  '(result, l') <- integer_loop (lexer_fuel l) "" l ;;
  n <- int result ;;
  Ok (n, l').

Definition ascii_eqb (a b : ascii) : bool := Ascii.eqb a b.

Fixpoint get_next_token_loop (fuel : nat) (l : Lexer) : res (Token * Lexer) :=
  match fuel with
  | O => NoFuel
  | S fuel' =>
      match current_char l with
      | Some c =>
          if isspace c then
            l' <- skip_whitespace l ;;
            get_next_token_loop fuel' l'
          else if isdigit c then
            '(n, l') <- integer l ;;
            Ok (mkToken INTEGER (VInt n), l')
          else if ascii_eqb c "+" then Ok (mkToken PLUS (VStr "+"), advance l)
          else if ascii_eqb c "-" then Ok (mkToken MINUS (VStr "-"), advance l)
          else if ascii_eqb c "*" then Ok (mkToken MUL (VStr "*"), advance l)
          else if ascii_eqb c "/" then Ok (mkToken DIV (VStr "/"), advance l)
          else if ascii_eqb c "(" then Ok (mkToken LPAREN (VStr "("), advance l)
          else if ascii_eqb c ")" then Ok (mkToken RPAREN (VStr ")"), advance l)
          else Lexer_error
      | None => Ok (mkToken EOF VNone, l)
      end
  end.

Definition get_next_token (l : Lexer) : res (Token * Lexer) :=
  get_next_token_loop (lexer_fuel l) l.

(** ** Parser *)

(** A node of the tree, or [None]: [factor] falls off its [if]/[elif]
    and returns [None] when the token is neither an integer nor an
    opening parenthesis, and [BinOp] stores whatever it is given. *)
Inductive AST : Type :=
| NoneNode
| Num (token : Token)
| BinOp (left : AST) (op : Token) (right : AST).

(** The parser keeps the lexer it is given and only ever calls
    [get_next_token] on it: any object with that method will do.  The
    class states this interface; [Lexer] is its instance in the program. *)
Class TokenSource (L : Type) : Type :=
  next_token : L -> res (Token * L).

#[global] Instance Lexer_TokenSource : TokenSource Lexer := get_next_token.

Record Parser (L : Type) : Type := mkParser {
  lexer : L;
  current_token : Token
}.

Arguments mkParser {L} lexer current_token.
Arguments lexer {L} p.
Arguments current_token {L} p.

Definition Parser_error {A : Type} : res A :=
  Raise (Exception "Invalid syntax").

Section Rules.

Context {L : Type} `{TokenSource L}.

(** [Parser.__init__]: the current token is the first token. *)
Definition Parser_init (lexer : L) : res (Parser L) :=
  '(t, l) <- next_token lexer ;;
  Ok (mkParser l t).

Definition eat (token_type : TokenType) (p : Parser L) : res (Parser L) :=
  if TokenType_eqb (type (current_token p)) token_type
  then
    '(t, l) <- next_token (lexer p) ;;
    Ok (mkParser l t)
  else Parser_error.

(** The recursive call to [expr] made inside [factor]. *)
Variable expr_rec : Parser L -> res (AST * Parser L).

Definition factor_with (p : Parser L) : res (AST * Parser L) :=
  let token := current_token p in
  match type token with
  | INTEGER =>
      p <- eat INTEGER p ;;
      Ok (Num token, p)
  | LPAREN =>
      p <- eat LPAREN p ;;
      '(node, p) <- expr_rec p ;;
      p <- eat RPAREN p ;;
      Ok (node, p)
  | _ => Ok (NoneNode, p)
  end.

Fixpoint term_loop (fuel : nat) (node : AST) (p : Parser L)
  : res (AST * Parser L) :=
  match fuel with
  | O => NoFuel
  | S fuel' =>
      let token := current_token p in
      match type token with
      | MUL =>
          p <- eat MUL p ;;
          '(rhs, p) <- factor_with p ;;
          term_loop fuel' (BinOp node token rhs) p
      | DIV =>
          p <- eat DIV p ;;
          '(rhs, p) <- factor_with p ;;
          term_loop fuel' (BinOp node token rhs) p
      | _ => Ok (node, p)
      end
  end.

Definition term_with (fuel : nat) (p : Parser L) : res (AST * Parser L) :=
  '(node, p) <- factor_with p ;;
  term_loop fuel node p.

Fixpoint expr_loop (fuel : nat) (node : AST) (p : Parser L)
  : res (AST * Parser L) :=
  match fuel with
  | O => NoFuel
  | S fuel' =>
      let token := current_token p in
      match type token with
      | PLUS =>
          p <- eat PLUS p ;;
          '(rhs, p) <- term_with fuel p ;;
          expr_loop fuel' (BinOp node token rhs) p
      | MINUS =>
          p <- eat MINUS p ;;
          '(rhs, p) <- term_with fuel p ;;
          expr_loop fuel' (BinOp node token rhs) p
      | _ => Ok (node, p)
      end
  end.

Definition expr_with (fuel : nat) (p : Parser L) : res (AST * Parser L) :=
  '(node, p) <- term_with fuel p ;;
  expr_loop fuel node p.

End Rules.

Section Grammar.

Context {L : Type} `{TokenSource L}.

(** [Parser.expr]: one unit of fuel per nested call, and the same
    amount for each of its loops. *)
Fixpoint expr (fuel : nat) (p : Parser L) : res (AST * Parser L) :=
  match fuel with
  | O => NoFuel
  | S fuel' => expr_with (expr fuel') fuel p
  end.

Definition factor (fuel : nat) : Parser L -> res (AST * Parser L) :=
  factor_with (expr fuel).

Definition term (fuel : nat) : Parser L -> res (AST * Parser L) :=
  term_with (expr fuel) (S fuel).

Definition parse (fuel : nat) (p : Parser L) : res (AST * Parser L) :=
  expr fuel p.

End Grammar.

(** ** Interpreter *)

Fixpoint repeat_string (n : nat) (s : string) : string :=
  match n with
  | O => ""
  | S n' => s ++ repeat_string n' s
  end.

(** The four operators on what a visit can return.  Only the [int]
    cases are reached from a parsed tree; the others follow the
    language: [str + str] and [str * int] are defined, the rest raises
    [TypeError]. *)
Definition py_add (a b : Value) : res Value :=
  match a, b with
  | VInt x, VInt y => Ok (VInt (x + y))
  | VStr x, VStr y => Ok (VStr (x ++ y))
  | _, _ => Raise TypeError
  end.

Definition py_sub (a b : Value) : res Value :=
  match a, b with
  | VInt x, VInt y => Ok (VInt (x - y))
  | _, _ => Raise TypeError
  end.

Definition py_mul (a b : Value) : res Value :=
  match a, b with
  | VInt x, VInt y => Ok (VInt (x * y))
  | VStr s, VInt n | VInt n, VStr s => Ok (VStr (repeat_string (Z.to_nat n) s))
  | _, _ => Raise TypeError
  end.

(** [//] on [int]s rounds towards minus infinity, as [Z.div] does, and
    raises [ZeroDivisionError] on a zero divisor. *)
Definition py_floordiv (a b : Value) : res Value :=
  match a, b with
  | VInt x, VInt y =>
      if (y =? 0)%Z then Raise ZeroDivisionError else Ok (VInt (x / y))
  | _, _ => Raise TypeError
  end.

(** [NodeVisitor.generic_visit] on [None], whose type is [NoneType]. *)
Definition generic_visit {A : Type} : res A :=
  Raise (Exception "No visit_NoneType method").

(** [NodeVisitor.visit] with [visit_BinOp] and [visit_Num] inlined: the
    dispatch on the class of the node is the [match].  A [BinOp] whose
    operator is none of the four falls off the end of [visit_BinOp],
    which then returns [None]. *)
Fixpoint visit (node : AST) : res Value :=
  match node with
  | NoneNode => generic_visit
  | Num token => Ok (value token)
  | BinOp lhs op rhs =>
      match type op with
      | PLUS => a <- visit lhs ;; b <- visit rhs ;; py_add a b
      | MINUS => a <- visit lhs ;; b <- visit rhs ;; py_sub a b
      | MUL => a <- visit lhs ;; b <- visit rhs ;; py_mul a b
      | DIV => a <- visit lhs ;; b <- visit rhs ;; py_floordiv a b
      | _ => Ok VNone
      end
  end.

(** [Interpreter.interpret]. *)
Definition interpret {L : Type} `{TokenSource L} (fuel : nat)
  (parser : Parser L) : res Value :=
  '(tree, _) <- parse fuel parser ;;
  visit tree.

(** The body of the loop of [main] (lines 262 to 265), which the
    specification calls [evaluate], on a given amount of fuel. *)
Definition evaluate_with (fuel : nat) (text : string) : res Value :=
  lexer <- Lexer_init text ;;
  parser <- Parser_init lexer ;;
  interpret fuel parser.

(** Fuel for a text: more than its length. *)
Definition text_fuel (text : string) : nat := 2 + String.length text.

Definition evaluate (text : string) : res Value :=
  evaluate_with (text_fuel text) text.

(** The parser [main] builds for a text, the tree it would have the
    interpreter walk, and the token the parser is left looking at. *)
Definition parser_of (text : string) : res (Parser Lexer) :=
  lexer <- Lexer_init text ;;
  Parser_init lexer.

Definition parse_text (text : string) : res AST :=
  parser <- parser_of text ;;
  '(tree, _) <- parse (text_fuel text) parser ;;
  Ok tree.

Definition lookahead_after_parse (text : string) : res Token :=
  parser <- parser_of text ;;
  '(_, parser') <- parse (text_fuel text) parser ;;
  Ok (current_token parser').

(** ** The remaining input

    What the lexer has still to read is a list of characters; the parser
    and the interpreter depend on the lexer through this list only.  The
    definitions below restate the lexer on it, as a second instance of
    [TokenSource], and the lemmas after them show that [Lexer] refines
    it. *)

Definition chars (s : string) : list ascii := list_ascii_of_string s.

(** The characters from the current one on. *)
Definition rest (l : Lexer) : list ascii :=
  match current_char l with
  | Some c => c :: skipn (S (pos l)) (chars (text l))
  | None => []
  end.

Fixpoint skip_ws (s : list ascii) : list ascii :=
  match s with
  | c :: s' => if isspace c then skip_ws s' else s
  | [] => []
  end.

Fixpoint span_digits (s : list ascii) : list ascii * list ascii :=
  match s with
  | c :: s' =>
      if isdigit c
      then let (ds, r) := span_digits s' in (c :: ds, r)
      else ([], s)
  | [] => ([], [])
  end.

(** One token from a list that does not start with a blank. *)
Definition lex_head (s : list ascii) : res (Token * list ascii) :=
  match s with
  | [] => Ok (mkToken EOF VNone, [])
  | c :: s' =>
      if isdigit c then
        n <- int (string_of_list_ascii (fst (span_digits s))) ;;
        Ok (mkToken INTEGER (VInt n), snd (span_digits s))
      else if ascii_eqb c "+" then Ok (mkToken PLUS (VStr "+"), s')
      else if ascii_eqb c "-" then Ok (mkToken MINUS (VStr "-"), s')
      else if ascii_eqb c "*" then Ok (mkToken MUL (VStr "*"), s')
      else if ascii_eqb c "/" then Ok (mkToken DIV (VStr "/"), s')
      else if ascii_eqb c "(" then Ok (mkToken LPAREN (VStr "("), s')
      else if ascii_eqb c ")" then Ok (mkToken RPAREN (VStr ")"), s')
      else Lexer_error
  end.

Definition lex (s : list ascii) : res (Token * list ascii) :=
  lex_head (skip_ws s).

#[global] Instance chars_TokenSource : TokenSource (list ascii) := lex.

(** The pipeline on a list of characters. *)
Definition run (fuel : nat) (s : list ascii) : res Value :=
  parser <- Parser_init s ;;
  interpret fuel parser.

(** What a parser over a list has left to consume: the characters not
    yet read, and the current token unless it is [EOF]. *)
Definition remaining (p : Parser (list ascii)) : nat :=
  List.length (lexer p) +
  match type (current_token p) with EOF => 0 | _ => 1 end.

(** The same for the parser of the program, read off what its lexer has
    left. *)
Definition unconsumed (p : Parser Lexer) : nat :=
  remaining (mkParser (rest (lexer p)) (current_token p)).

(** Two outcomes agree: both values, related by [P]; or the same
    exception; or both out of fuel. *)
Definition res_rel {A B : Type} (P : A -> B -> Prop)
  (r1 : res A) (r2 : res B) : Prop :=
  match r1, r2 with
  | Ok a, Ok b => P a b
  | Raise e1, Raise e2 => e1 = e2
  | NoFuel, NoFuel => True
  | _, _ => False
  end.

(** Simulation of one token source by another, along a relation [R]
    between their states: the same token and related states behind it;
    parsers with the same current token over related sources; the same
    tree and related parsers. *)
Definition token_sim {L1 L2 : Type} (R : L1 -> L2 -> Prop)
  (x : Token * L1) (y : Token * L2) : Prop :=
  fst x = fst y /\ R (snd x) (snd y).

Definition parser_sim {L1 L2 : Type} (R : L1 -> L2 -> Prop)
  (p1 : Parser L1) (p2 : Parser L2) : Prop :=
  current_token p1 = current_token p2 /\ R (lexer p1) (lexer p2).

Definition node_sim {L1 L2 : Type} (R : L1 -> L2 -> Prop)
  (x : AST * Parser L1) (y : AST * Parser L2) : Prop :=
  fst x = fst y /\ parser_sim R (snd x) (snd y).

(** The lexer [l] has [s] left to read. *)
Definition has_rest (l : Lexer) (s : list ascii) : Prop := rest l = s.

Definition token_rest : Token * Lexer -> Token * list ascii -> Prop :=
  token_sim has_rest.

(** [r1] is [r2] unless it ran out of fuel. *)
Definition res_le {A : Type} (r1 r2 : res A) : Prop :=
  r1 = NoFuel \/ r1 = r2.

(** A rule has returned or raised, and has left no more than [n] to
    consume. *)
Definition bounded (r : res (AST * Parser (list ascii))) (n : nat) : Prop :=
  match r with
  | Ok (_, p) => remaining p <= n
  | Raise _ => True
  | NoFuel => False
  end.

Definition starts_digit (s : list ascii) : bool :=
  match s with
  | c :: _ => isdigit c
  | [] => false
  end.

(** Two texts that differ in blanks only, where no blank splits a run
    of digits of the one that is whole in the other. *)
Inductive ws_equiv : list ascii -> list ascii -> Prop :=
| ws_nil : ws_equiv [] []
| ws_left c s1 s2 :
    isspace c = true -> ws_equiv s1 s2 -> ws_equiv (c :: s1) s2
| ws_right c s1 s2 :
    isspace c = true -> ws_equiv s1 s2 -> ws_equiv s1 (c :: s2)
| ws_both c s1 s2 :
    ws_equiv s1 s2 ->
    (isdigit c = true -> starts_digit s1 = starts_digit s2) ->
    ws_equiv (c :: s1) (c :: s2).

Fixpoint ends_digit (s : list ascii) : bool :=
  match s with
  | [] => false
  | c :: s' =>
      match s' with
      | [] => isdigit c
      | _ :: _ => ends_digit s'
      end
  end.

(** A tree with no [None] in it. *)
Fixpoint complete (node : AST) : bool :=
  match node with
  | NoneNode => false
  | Num _ => true
  | BinOp lhs _ rhs => complete lhs && complete rhs
  end.

(** The literal tokens and leaves of the examples. *)
Definition INTEGER_token (n : Z) : Token := mkToken INTEGER (VInt n).
Definition PLUS_token : Token := mkToken PLUS (VStr "+").
Definition MINUS_token : Token := mkToken MINUS (VStr "-").
Definition MUL_token : Token := mkToken MUL (VStr "*").
Definition DIV_token : Token := mkToken DIV (VStr "/").
Definition Num_of (n : Z) : AST := Num (INTEGER_token n).

(** The number a literal denotes: a non-empty string of decimal digits,
    read by the standard library. *)
Definition literal_value (s : string) : option Z :=
  option_map (fun u => Z.of_N (N.of_uint u)) (NilZero.uint_of_string s).

(** A character the lexer has no rule for. *)
Definition unknown (c : ascii) : bool :=
  negb (isspace c) && negb (isdigit c)
  && negb (ascii_eqb c "+") && negb (ascii_eqb c "-")
  && negb (ascii_eqb c "*") && negb (ascii_eqb c "/")
  && negb (ascii_eqb c "(") && negb (ascii_eqb c ")").

(** ** The state of the lexer *)

(** The lexer is where its position says: the current character is the
    character of the text at [pos], or [None] from the end of the text
    on, and [pos] is not beyond the end. *)
Definition Lexer_wf (l : Lexer) : Prop :=
  current_char l = String.get (pos l) (text l)
  /\ pos l <= String.length (text l).

(** From [l] to [l']: the same text, no step back, and still where the
    position says. *)
Definition lexer_moves (l l' : Lexer) : Prop :=
  Lexer_wf l' /\ text l' = text l /\ pos l <= pos l'.

(** The tokens [get_next_token] builds. *)
Definition EOF_token : Token := mkToken EOF VNone.
Definition LPAREN_token : Token := mkToken LPAREN (VStr "(").
Definition RPAREN_token : Token := mkToken RPAREN (VStr ")").

Definition lexer_token (t : Token) : Prop :=
  (exists n, t = INTEGER_token n)
  \/ t = PLUS_token \/ t = MINUS_token \/ t = MUL_token \/ t = DIV_token
  \/ t = LPAREN_token \/ t = RPAREN_token \/ t = EOF_token.

(** ** Texts of any length *)

(** A tail of additions and subtractions of literals, [" + s1 - s2 ..."];
    the value it gives to what stands before it, when every operand is a
    literal; and the tree [expr] builds for it. *)
Definition additive_op (plus : bool) : string :=
  if plus then " + " else " - ".

Definition additive_token (plus : bool) : Token :=
  if plus then PLUS_token else MINUS_token.

Fixpoint chain_text (ops : list (bool * string)) : string :=
  match ops with
  | [] => ""
  | (plus, s) :: ops' => additive_op plus ++ s ++ chain_text ops'
  end.

Fixpoint chain_value (acc : Z) (ops : list (bool * string)) : option Z :=
  match ops with
  | [] => Some acc
  | (plus, s) :: ops' =>
      match literal_value s with
      | Some n => chain_value (if plus then acc + n else acc - n)%Z ops'
      | None => None
      end
  end.

Fixpoint chain_tree (node : AST) (ops : list (bool * string)) : AST :=
  match ops with
  | [] => node
  | (plus, s) :: ops' =>
      match literal_value s with
      | Some n => chain_tree (BinOp node (additive_token plus) (Num_of n)) ops'
      | None => node
      end
  end.

(** [s] inside [n] pairs of parentheses. *)
Fixpoint nested (n : nat) (s : string) : string :=
  match n with
  | O => s
  | S k => "(" ++ nested k s ++ ")"
  end.

(** ** What a run can produce *)

(** A tree whose leaves are [INTEGER] tokens satisfying [IT] and whose
    inner nodes carry one of the four operators; [None] may stand for
    any subtree. *)
Inductive token_tree (IT : Token -> Prop) : AST -> Prop :=
| tree_None : token_tree IT NoneNode
| tree_Num (t : Token) :
    IT t -> type t = INTEGER -> token_tree IT (Num t)
| tree_BinOp (lhs : AST) (op : Token) (rhs : AST) :
    token_tree IT lhs -> token_tree IT rhs ->
    type op = PLUS \/ type op = MINUS \/ type op = MUL \/ type op = DIV ->
    token_tree IT (BinOp lhs op rhs).

(** The outcome of a rule of the parser over a list of characters: the
    tree is a [token_tree], the token and the characters left satisfy
    [IT] and [IL], and an exception satisfies [E]. *)
Definition outcome_inv (IL : list ascii -> Prop) (IT : Token -> Prop)
  (E : exn -> Prop) (r : res (AST * Parser (list ascii))) : Prop :=
  match r with
  | Ok (node, p) =>
      token_tree IT node /\ IT (current_token p) /\ IL (lexer p)
  | Raise e => E e
  | NoFuel => True
  end.

(** The exceptions a run of the lexer and the parser can end with, and
    those a run of the whole program can end with. *)
Definition parse_exception (e : exn) : Prop :=
  e = ValueError
  \/ e = Exception "Invalid character"
  \/ e = Exception "Invalid syntax".

Definition visit_exception (e : exn) : Prop :=
  e = ZeroDivisionError \/ e = Exception "No visit_NoneType method".

(** No opening parenthesis among the characters. *)
Definition no_lparen (s : list ascii) : bool :=
  forallb (fun c => negb (ascii_eqb c "(")) s.

(** ** The loop of [main] *)

(** How [main] ends: [input] raised [EOFError] and the loop was left;
    [sys.exit()] on an empty line; an exception no one catches; or, in
    the model only, fuel ran out. *)
Inductive ending : Type :=
| Returned
| Exited
| Crashed (e : exn)
| Unfinished.

(** [main] on the lines [input] returns one after the other, the end of
    the list being the end of the input: what it prints, in order, and
    how it ends. *)
Fixpoint main (inputs : list string) : list Value * ending :=
  match inputs with
  | [] => ([], Returned)
  | text :: inputs' =>
      match text with
      | EmptyString => ([], Exited)
      | _ =>
          match evaluate text with
          | Ok result =>
              let (printed, how) := main inputs' in (result :: printed, how)
          | Raise e => ([], Crashed e)
          | NoFuel => ([], Unfinished)
          end
      end
  end.

(** A line that [main] evaluates and prints the value of. *)
Definition prints (text : string) (v : Value) : Prop :=
  text <> "" /\ evaluate text = Ok v.

(** The token of each of the six characters that are tokens by
    themselves. *)
Definition operator_token (c : ascii) : option Token :=
  if ascii_eqb c "+" then Some PLUS_token
  else if ascii_eqb c "-" then Some MINUS_token
  else if ascii_eqb c "*" then Some MUL_token
  else if ascii_eqb c "/" then Some DIV_token
  else if ascii_eqb c "(" then Some LPAREN_token
  else if ascii_eqb c ")" then Some RPAREN_token
  else None.

(** ** Expressions and their text *)

(** An arithmetic expression, the text that writes it with every
    operation in parentheses, the tree the parser should build for it
    and its value ([None] when a division by zero occurs in it). *)
Inductive operator : Type := Add | Sub | Mul | Div.

Inductive Expr : Type :=
| Lit (n : N)
| Op (o : operator) (lhs rhs : Expr).

Definition operator_text (o : operator) : string :=
  match o with
  | Add => " + "
  | Sub => " - "
  | Mul => " * "
  | Div => " / "
  end.

Definition operator_tok (o : operator) : Token :=
  match o with
  | Add => PLUS_token
  | Sub => MINUS_token
  | Mul => MUL_token
  | Div => DIV_token
  end.

(** A number in decimal, as the standard library writes it. *)
Definition decimal (n : N) : string :=
  NilZero.string_of_uint (N.to_uint n).

Fixpoint print (e : Expr) : string :=
  match e with
  | Lit n => decimal n
  | Op o lhs rhs => "(" ++ print lhs ++ operator_text o ++ print rhs ++ ")"
  end.

Fixpoint tree_of (e : Expr) : AST :=
  match e with
  | Lit n => Num_of (Z.of_N n)
  | Op o lhs rhs => BinOp (tree_of lhs) (operator_tok o) (tree_of rhs)
  end.

Fixpoint value_of (e : Expr) : option Z :=
  match e with
  | Lit n => Some (Z.of_N n)
  | Op o lhs rhs =>
      match value_of lhs, value_of rhs with
      | Some a, Some b =>
          match o with
          | Add => Some (a + b)%Z
          | Sub => Some (a - b)%Z
          | Mul => Some (a * b)%Z
          | Div => if (b =? 0)%Z then None else Some (a / b)%Z
          end
      | _, _ => None
      end
  end.

Fixpoint depth (e : Expr) : nat :=
  match e with
  | Lit _ => 0
  | Op _ lhs rhs => S (Nat.max (depth lhs) (depth rhs))
  end.

(** The tree of the pipeline over a list of characters. *)
Definition parse_chars (fuel : nat) (s : list ascii) : res AST :=
  parser <- Parser_init s ;;
  '(tree, _) <- parse fuel parser ;;
  Ok tree.

(** ** Text behind an expression *)

(** The text [s] starts with a token, or is at its end, and the token is
    none of the four operators: nothing an expression in front of it
    could go on with. *)
Definition starts_no_operator (s : list ascii) : bool :=
  match lex s with
  | Ok (t, _) =>
      match type t with
      | PLUS | MINUS | MUL | DIV => false
      | _ => true
      end
  | _ => false
  end.

(** Two parsers, the first on a text and the second on the same text
    with [r] behind it, [r] starting with the token [t_r] and going on
    with [r']: either both look at the same token, not [EOF], of the
    first text, or the first has reached the end of its text and the
    second looks at [t_r]. *)
Definition trail_rel (r : list ascii) (t_r : Token) (r' : list ascii)
  (p1 p2 : Parser (list ascii)) : Prop :=
  (current_token p2 = current_token p1
   /\ type (current_token p1) <> EOF
   /\ lexer p2 = (lexer p1 ++ r)%list
   /\ ends_digit (lexer p1) && starts_digit r = false)
  \/ (type (current_token p1) = EOF
      /\ p2 = mkParser r' t_r).

(** A rule that, when it returns a tree with no [None] in it on the
    first parser, returns the same tree on the second. *)
Definition trails (r : list ascii) (t_r : Token) (r' : list ascii)
  (e : Parser (list ascii) -> res (AST * Parser (list ascii))) : Prop :=
  forall p1 p2 node q1,
    trail_rel r t_r r' p1 p2 ->
    e p1 = Ok (node, q1) ->
    complete node = true ->
    exists q2, e p2 = Ok (node, q2) /\ trail_rel r t_r r' q1 q2.

(** * Properties *)

#[local] Arguments skipn : simpl never.

(** ** Strings as lists *)

Lemma get_chars (s : string) (n : nat) :
  String.get n s = nth_error (chars s) n.
Proof.
  revert n; induction s as [|c s IH]; intros [|n]; simpl; auto.
Qed.

Lemma length_chars (s : string) : String.length s = List.length (chars s).
Proof.
  induction s; simpl; auto.
Qed.

Lemma chars_app (a b : string) : chars (a ++ b) = (chars a ++ chars b)%list.
Proof.
  induction a as [|c a IH]; simpl; [reflexivity|].
  unfold chars in *; simpl; now rewrite IH.
Qed.

Lemma append_assoc (a b c : string) : (a ++ b) ++ c = a ++ (b ++ c).
Proof.
  induction a as [|x a IH]; simpl; [reflexivity|]. now rewrite IH.
Qed.

Lemma append_empty (a : string) : a ++ "" = a.
Proof.
  induction a as [|x a IH]; simpl; [reflexivity|]. now rewrite IH.
Qed.

Lemma skipn_nth {A : Type} (l : list A) (n : nat) (d : A) :
  nth_error l n = Some d -> skipn n l = d :: skipn (S n) l.
Proof.
  revert n; induction l as [|x l IH]; intros [|n]; simpl; try discriminate.
  - now intros [= ->].
  - intros Hn. now apply IH.
Qed.

(** ** Character classes *)

Lemma isspace_not_isdigit (c : ascii) : isspace c = true -> isdigit c = false.
Proof.
  destruct c as [[] [] [] [] [] [] [] []]; vm_compute; congruence.
Qed.

(** ** The lexer refines [lex] *)

Lemma rest_current (l : Lexer) (c : ascii) :
  current_char l = Some c ->
  rest l = c :: skipn (S (pos l)) (chars (text l)).
Proof.
  unfold rest; now intros ->.
Qed.

Lemma rest_advance (l : Lexer) :
  rest (advance l) = skipn (S (pos l)) (chars (text l)).
Proof.
  unfold advance, rest; simpl.
  rewrite Nat.add_1_r, length_chars.
  destruct (Z.ltb_spec (Z.of_nat (List.length (chars (text l))) - 1)
              (Z.of_nat (S (pos l)))) as [Hlt|Hge]; simpl.
  - symmetry; apply skipn_all2; lia.
  - rewrite get_chars.
    destruct (nth_error (chars (text l)) (S (pos l))) as [d|] eqn:Hd.
    + symmetry; now apply skipn_nth.
    + apply nth_error_None in Hd; lia.
Qed.

Lemma rest_length_fuel (l : Lexer) : List.length (rest l) < lexer_fuel l.
Proof.
  unfold rest, lexer_fuel. rewrite length_chars.
  destruct (current_char l); simpl; [|lia].
  rewrite length_skipn; lia.
Qed.

Lemma skip_whitespace_loop_spec (fuel : nat) : forall l : Lexer,
  List.length (rest l) < fuel ->
  exists l', skip_whitespace_loop fuel l = Ok l'
             /\ rest l' = skip_ws (rest l).
Proof.
  induction fuel as [|fuel IH]; intros l Hlen; [lia|].
  simpl. destruct (current_char l) as [c|] eqn:Hc.
  - rewrite (rest_current l c Hc) in *. simpl in *.
    destruct (isspace c).
    + destruct (IH (advance l)) as (l' & Hrun & Hrest).
      { rewrite rest_advance; lia. }
      exists l'; split; [exact Hrun|]. now rewrite Hrest, rest_advance.
    + exists l; split; [reflexivity|]. now apply rest_current.
  - exists l; split; [reflexivity|]. unfold rest; now rewrite Hc.
Qed.

Lemma skip_whitespace_spec (l : Lexer) :
  exists l', skip_whitespace l = Ok l' /\ rest l' = skip_ws (rest l).
Proof.
  apply skip_whitespace_loop_spec, rest_length_fuel.
Qed.

Lemma integer_loop_spec (fuel : nat) : forall (result : string) (l : Lexer),
  List.length (rest l) < fuel ->
  exists l',
    integer_loop fuel result l
    = Ok (result ++ string_of_list_ascii (fst (span_digits (rest l))), l')
    /\ rest l' = snd (span_digits (rest l)).
Proof.
  induction fuel as [|fuel IH]; intros result l Hlen; [lia|].
  simpl. destruct (current_char l) as [c|] eqn:Hc.
  - rewrite (rest_current l c Hc) in *. simpl in *.
    destruct (isdigit c).
    + destruct (IH (result ++ String c EmptyString) (advance l))
        as (l' & Hrun & Hrest).
      { rewrite rest_advance; lia. }
      rewrite rest_advance in Hrun, Hrest.
      destruct (span_digits (skipn (S (pos l)) (chars (text l))))
        as [ds r]; simpl in *.
      exists l'; split; [|exact Hrest].
      rewrite Hrun, append_assoc. reflexivity.
    + simpl. rewrite append_empty.
      exists l; split; [reflexivity|now apply rest_current].
  - unfold rest; rewrite Hc; simpl. rewrite append_empty.
    exists l; split; [reflexivity|]. now rewrite Hc.
Qed.

Lemma skip_ws_head (s : list ascii) (c : ascii) (s' : list ascii) :
  skip_ws s = c :: s' -> isspace c = false.
Proof.
  induction s as [|x s IH]; simpl; [discriminate|].
  destruct (isspace x) eqn:Hx; [exact IH|].
  now intros [= <- _].
Qed.

Lemma skip_ws_fixed (s : list ascii) :
  (forall c s', s = c :: s' -> isspace c = false) -> skip_ws s = s.
Proof.
  destruct s as [|c s]; simpl; [reflexivity|].
  intros Hc. now rewrite (Hc c s eq_refl).
Qed.

Lemma integer_spec (l : Lexer) :
  res_rel (fun x y => fst x = y /\ rest (snd x) = snd (span_digits (rest l)))
    (integer l) (int (string_of_list_ascii (fst (span_digits (rest l))))).
Proof.
  unfold integer.
  destruct (integer_loop_spec (lexer_fuel l) "" l (rest_length_fuel l))
    as (l' & Hrun & Hrest).
  rewrite Hrun; simpl.
  destruct (int _); simpl; auto.
Qed.

Lemma get_next_token_loop_head (fuel : nat) (l : Lexer) :
  (forall c, current_char l = Some c -> isspace c = false) ->
  res_rel token_rest (get_next_token_loop (S fuel) l) (lex_head (rest l)).
Proof.
  intros Hhead. simpl.
  destruct (current_char l) as [c|] eqn:Hc.
  2:{ unfold rest; rewrite Hc; simpl. split; simpl; [reflexivity|].
      unfold has_rest, rest; now rewrite Hc. }
  rewrite (Hhead c eq_refl).
  pose proof (integer_spec l) as Hint.
  rewrite (rest_current l c Hc) in *.
  unfold lex_head.
  destruct (isdigit c).
  { destruct (integer l) as [[n l']| |],
             (int (string_of_list_ascii (fst (span_digits _)))) as [m| |];
      cbn [res_rel bind fst snd] in *; try contradiction; auto.
    destruct Hint as [-> Hrest]. split; [reflexivity|exact Hrest]. }
  repeat match goal with
         | |- context [ascii_eqb c ?k] => destruct (ascii_eqb c k)
         end;
    simpl; try reflexivity;
    (split; simpl; [reflexivity|apply rest_advance]).
Qed.

(** [get_next_token] returns the token [lex] reads off the remaining
    input and leaves what [lex] leaves, or raises the same exception; it
    never runs out of fuel, since [lex] cannot. *)
Theorem get_next_token_lex (l : Lexer) :
  res_rel token_rest (get_next_token l) (lex (rest l)).
Proof.
  unfold get_next_token, lexer_fuel, lex.
  destruct (current_char l) as [c|] eqn:Hc.
  - destruct (isspace c) eqn:Hsp.
    + change (get_next_token_loop (2 + String.length (text l)) l)
        with (get_next_token_loop (S (S (String.length (text l)))) l).
      cbn [get_next_token_loop]. rewrite Hc, Hsp.
      destruct (skip_whitespace_spec l) as (l' & Hskip & Hrest).
      rewrite Hskip; cbn [bind]. rewrite <- Hrest.
      apply get_next_token_loop_head.
      intros d Hd. rewrite (rest_current l' d Hd) in Hrest.
      symmetry in Hrest. now apply skip_ws_head in Hrest.
    + rewrite skip_ws_fixed.
      * apply get_next_token_loop_head. intros d Hd; congruence.
      * intros d s' Hd. rewrite (rest_current l c Hc) in Hd. congruence.
  - rewrite skip_ws_fixed.
    + apply get_next_token_loop_head. intros d Hd; congruence.
    + unfold rest; rewrite Hc; discriminate.
Qed.

(** ** Simulation between token sources *)

Lemma res_rel_bind {A1 A2 B1 B2 : Type}
  (P : A1 -> A2 -> Prop) (Q : B1 -> B2 -> Prop)
  (m1 : res A1) (m2 : res A2) (k1 : A1 -> res B1) (k2 : A2 -> res B2) :
  res_rel P m1 m2 ->
  (forall a1 a2, P a1 a2 -> res_rel Q (k1 a1) (k2 a2)) ->
  res_rel Q (bind m1 k1) (bind m2 k2).
Proof.
  destruct m1, m2; simpl; intros Hm Hk; try contradiction; auto.
Qed.

Lemma res_rel_eq {A : Type} (r1 r2 : res A) : res_rel eq r1 r2 -> r1 = r2.
Proof.
  destruct r1, r2; simpl; intros Hr; try contradiction; congruence.
Qed.

Section Simulation.

Context {L1 L2 : Type} {S1 : TokenSource L1} {S2 : TokenSource L2}.
Variable R : L1 -> L2 -> Prop.
Hypothesis next_sim : forall l1 l2,
  R l1 l2 -> res_rel (token_sim R) (next_token l1) (next_token l2).

Lemma Parser_init_sim (l1 : L1) (l2 : L2) :
  R l1 l2 -> res_rel (parser_sim R) (Parser_init l1) (Parser_init l2).
Proof.
  intros Hl. unfold Parser_init.
  apply res_rel_bind with (P := token_sim R); [now apply next_sim|].
  intros [t1 l1'] [t2 l2'] [Ht Hl']; simpl in *. now split.
Qed.

Lemma eat_sim (token_type : TokenType) (p1 : Parser L1) (p2 : Parser L2) :
  parser_sim R p1 p2 ->
  res_rel (parser_sim R) (eat token_type p1) (eat token_type p2).
Proof.
  intros [Ht Hl]. unfold eat. rewrite Ht.
  destruct (TokenType_eqb _ _); [|reflexivity].
  apply res_rel_bind with (P := token_sim R); [now apply next_sim|].
  intros [t1 l1'] [t2 l2'] [Ht' Hl']; simpl in *. now split.
Qed.

Section SimRules.

Variable e1 : Parser L1 -> res (AST * Parser L1).
Variable e2 : Parser L2 -> res (AST * Parser L2).
Hypothesis rec_sim : forall p1 p2,
  parser_sim R p1 p2 -> res_rel (node_sim R) (e1 p1) (e2 p2).

Lemma factor_with_sim (p1 : Parser L1) (p2 : Parser L2) :
  parser_sim R p1 p2 ->
  res_rel (node_sim R) (factor_with e1 p1) (factor_with e2 p2).
Proof.
  intros Hp. pose proof Hp as [Ht Hl]. unfold factor_with. rewrite Ht.
  destruct (type (current_token p2)); try (now split).
  - apply res_rel_bind with (P := parser_sim R); [now apply eat_sim|].
    intros q1 q2 Hq. now split.
  - apply res_rel_bind with (P := parser_sim R); [now apply eat_sim|].
    intros q1 q2 Hq.
    apply res_rel_bind with (P := node_sim R); [now apply rec_sim|].
    intros [n1 r1] [n2 r2] [Hn Hr]; simpl in *.
    apply res_rel_bind with (P := parser_sim R); [now apply eat_sim|].
    intros s1 s2 Hs. now split.
Qed.

Lemma term_loop_sim (fuel : nat) :
  forall (node : AST) (p1 : Parser L1) (p2 : Parser L2),
  parser_sim R p1 p2 ->
  res_rel (node_sim R) (term_loop e1 fuel node p1) (term_loop e2 fuel node p2).
Proof.
  induction fuel as [|fuel IH]; intros node p1 p2 Hp; [exact I|].
  pose proof Hp as [Ht Hl]. simpl. rewrite Ht.
  destruct (type (current_token p2)); try (now split).
  all: apply res_rel_bind with (P := parser_sim R); [now apply eat_sim|];
    intros q1 q2 Hq;
    apply res_rel_bind with (P := node_sim R); [now apply factor_with_sim|];
    intros [n1 r1] [n2 r2] [Hn Hr]; simpl in *; subst n2;
    now apply IH.
Qed.

Lemma term_with_sim (fuel : nat) (p1 : Parser L1) (p2 : Parser L2) :
  parser_sim R p1 p2 ->
  res_rel (node_sim R) (term_with e1 fuel p1) (term_with e2 fuel p2).
Proof.
  intros Hp. unfold term_with.
  apply res_rel_bind with (P := node_sim R); [now apply factor_with_sim|].
  intros [n1 r1] [n2 r2] [Hn Hr]; simpl in *; subst n2.
  now apply term_loop_sim.
Qed.

Lemma expr_loop_sim (fuel : nat) :
  forall (node : AST) (p1 : Parser L1) (p2 : Parser L2),
  parser_sim R p1 p2 ->
  res_rel (node_sim R) (expr_loop e1 fuel node p1) (expr_loop e2 fuel node p2).
Proof.
  induction fuel as [|fuel IH]; intros node p1 p2 Hp; [exact I|].
  pose proof Hp as [Ht Hl]. simpl. rewrite Ht.
  destruct (type (current_token p2)); try (now split).
  all: apply res_rel_bind with (P := parser_sim R); [now apply eat_sim|];
    intros q1 q2 Hq;
    apply res_rel_bind with (P := node_sim R); [now apply term_with_sim|];
    intros [n1 r1] [n2 r2] [Hn Hr]; simpl in *; subst n2;
    now apply IH.
Qed.

Lemma expr_with_sim (fuel : nat) (p1 : Parser L1) (p2 : Parser L2) :
  parser_sim R p1 p2 ->
  res_rel (node_sim R) (expr_with e1 fuel p1) (expr_with e2 fuel p2).
Proof.
  intros Hp. unfold expr_with.
  apply res_rel_bind with (P := node_sim R); [now apply term_with_sim|].
  intros [n1 r1] [n2 r2] [Hn Hr]; simpl in *; subst n2.
  now apply expr_loop_sim.
Qed.

End SimRules.

Lemma expr_sim (fuel : nat) : forall (p1 : Parser L1) (p2 : Parser L2),
  parser_sim R p1 p2 -> res_rel (node_sim R) (expr fuel p1) (expr fuel p2).
Proof.
  induction fuel as [|fuel IH]; intros p1 p2 Hp; [exact I|].
  simpl. now apply expr_with_sim.
Qed.

Lemma interpret_sim (fuel : nat) (p1 : Parser L1) (p2 : Parser L2) :
  parser_sim R p1 p2 -> interpret fuel p1 = interpret fuel p2.
Proof.
  intros Hp. apply res_rel_eq. unfold interpret, parse.
  apply res_rel_bind with (P := node_sim R); [now apply expr_sim|].
  intros [n1 r1] [n2 r2] [Hn Hr]; simpl in *; subst n2.
  destruct (visit n1); simpl; auto.
Qed.

End Simulation.

(** ** The program runs as the pipeline on the characters of its text *)

Lemma Lexer_init_rest (text : string) :
  text <> "" -> exists l, Lexer_init text = Ok l /\ rest l = chars text.
Proof.
  destruct text as [|c s]; [congruence|]. intros _.
  eexists; split; [reflexivity|]. reflexivity.
Qed.

(** On a text that is not empty the program and the pipeline over the
    characters of the text have the same outcome, fuel for fuel. *)
Theorem evaluate_with_run (fuel : nat) (text : string) :
  text <> "" -> evaluate_with fuel text = run fuel (chars text).
Proof.
  intros Hne. destruct (Lexer_init_rest text Hne) as (l & Hinit & Hrest).
  unfold evaluate_with, run. rewrite Hinit; cbn [bind].
  apply res_rel_eq.
  apply res_rel_bind with (P := parser_sim has_rest).
  - apply Parser_init_sim; [|exact Hrest].
    intros l1 l2 <-. apply get_next_token_lex.
  - intros p1 p2 Hp. rewrite (interpret_sim has_rest) with (p2 := p2); auto.
    + destruct (interpret fuel p2); simpl; auto.
    + intros l1 l2 <-. apply get_next_token_lex.
Qed.

(** ** Fuel: more never changes an outcome *)

Lemma res_le_refl {A : Type} (r : res A) : res_le r r.
Proof.
  now right.
Qed.

Lemma res_le_bind {A B : Type} (m1 m2 : res A) (k1 k2 : A -> res B) :
  res_le m1 m2 -> (forall a, res_le (k1 a) (k2 a)) ->
  res_le (bind m1 k1) (bind m2 k2).
Proof.
  intros [->| ->] Hk; [now left|].
  destruct m2; simpl; auto using res_le_refl.
Qed.

Section Monotone.

Context {L : Type} `{TokenSource L}.

Section MonoRules.

Variable e1 e2 : Parser L -> res (AST * Parser L).
Hypothesis rec_le : forall p, res_le (e1 p) (e2 p).

Lemma factor_with_mono (p : Parser L) :
  res_le (factor_with e1 p) (factor_with e2 p).
Proof.
  unfold factor_with.
  destruct (type (current_token p)); try apply res_le_refl.
  apply res_le_bind; [apply res_le_refl|]. intros q.
  apply res_le_bind; [apply rec_le|]. intros [n r]. apply res_le_refl.
Qed.

Lemma term_loop_mono (fuel : nat) : forall (fuel' : nat) (node : AST) (p : Parser L),
  fuel <= fuel' ->
  res_le (term_loop e1 fuel node p) (term_loop e2 fuel' node p).
Proof.
  induction fuel as [|fuel IH]; intros fuel' node p Hle; [now left|].
  destruct fuel' as [|fuel']; [lia|]. simpl.
  destruct (type (current_token p)); try apply res_le_refl.
  all: apply res_le_bind; [apply res_le_refl|]; intros q;
    apply res_le_bind; [apply factor_with_mono|]; intros [n r];
    apply IH; lia.
Qed.

Lemma term_with_mono (fuel fuel' : nat) (p : Parser L) :
  fuel <= fuel' -> res_le (term_with e1 fuel p) (term_with e2 fuel' p).
Proof.
  intros Hle. unfold term_with.
  apply res_le_bind; [apply factor_with_mono|]. intros [n r].
  now apply term_loop_mono.
Qed.

Lemma expr_loop_mono (fuel : nat) : forall (fuel' : nat) (node : AST) (p : Parser L),
  fuel <= fuel' ->
  res_le (expr_loop e1 fuel node p) (expr_loop e2 fuel' node p).
Proof.
  induction fuel as [|fuel IH]; intros fuel' node p Hle; [now left|].
  destruct fuel' as [|fuel']; [lia|]. simpl.
  destruct (type (current_token p)); try apply res_le_refl.
  all: apply res_le_bind; [apply res_le_refl|]; intros q;
    apply res_le_bind; [now apply term_with_mono|]; intros [n r];
    apply IH; lia.
Qed.

Lemma expr_with_mono (fuel fuel' : nat) (p : Parser L) :
  fuel <= fuel' -> res_le (expr_with e1 fuel p) (expr_with e2 fuel' p).
Proof.
  intros Hle. unfold expr_with.
  apply res_le_bind; [now apply term_with_mono|]. intros [n r].
  now apply expr_loop_mono.
Qed.

End MonoRules.

Lemma expr_mono (fuel : nat) : forall (fuel' : nat) (p : Parser L),
  fuel <= fuel' -> res_le (expr fuel p) (expr fuel' p).
Proof.
  induction fuel as [|fuel IH]; intros fuel' p Hle; [now left|].
  destruct fuel' as [|fuel']; [lia|]. simpl.
  apply expr_with_mono; [|lia]. intros q. apply IH; lia.
Qed.

Lemma interpret_mono (fuel fuel' : nat) (p : Parser L) :
  fuel <= fuel' -> res_le (interpret fuel p) (interpret fuel' p).
Proof.
  intros Hle. unfold interpret, parse.
  apply res_le_bind; [now apply expr_mono|]. intros [n r]. apply res_le_refl.
Qed.

End Monotone.

Lemma run_mono (fuel fuel' : nat) (s : list ascii) :
  fuel <= fuel' -> res_le (run fuel s) (run fuel' s).
Proof.
  intros Hle. unfold run.
  apply res_le_bind; [apply res_le_refl|]. intros p.
  now apply interpret_mono.
Qed.

(** ** Termination: what is left to consume bounds the fuel needed *)

Lemma skip_ws_length (s : list ascii) :
  List.length (skip_ws s) <= List.length s.
Proof.
  induction s as [|c s IH]; simpl; [lia|].
  destruct (isspace c); simpl; lia.
Qed.

Lemma span_digits_length (s : list ascii) :
  List.length (snd (span_digits s)) <= List.length s.
Proof.
  induction s as [|c s IH]; simpl; [lia|].
  destruct (isdigit c); [|simpl; lia].
  destruct (span_digits s); simpl in *; lia.
Qed.

Lemma int_acc_no_NoFuel (s : string) : forall acc, int_acc s acc <> NoFuel.
Proof.
  induction s as [|c s IH]; intros acc; simpl; [discriminate|].
  destruct (is_decimal c); [apply IH|discriminate].
Qed.

Lemma int_no_NoFuel (s : string) : int s <> NoFuel.
Proof.
  destruct s; [discriminate|]. apply int_acc_no_NoFuel.
Qed.

Lemma lex_head_shrinks (s : list ascii) :
  match lex_head s with
  | Ok (t, s') =>
      match type t with
      | EOF => s' = []
      | _ => List.length s' < List.length s
      end
  | Raise _ => True
  | NoFuel => False
  end.
Proof.
  destruct s as [|c s]; simpl; [reflexivity|].
  destruct (isdigit c).
  - match goal with
    | |- context [int ?d] =>
        pose proof (int_no_NoFuel d); destruct (int d)
    end; simpl; auto.
    pose proof (span_digits_length s).
    destruct (span_digits s); simpl in *; lia.
  - repeat match goal with
           | |- context [ascii_eqb c ?k] => destruct (ascii_eqb c k)
           end; simpl; auto.
Qed.

(** A token other than [EOF] takes at least one character; [EOF] leaves
    nothing. *)
Lemma lex_shrinks (s : list ascii) :
  match lex s with
  | Ok (t, s') =>
      match type t with
      | EOF => s' = []
      | _ => List.length s' < List.length s
      end
  | Raise _ => True
  | NoFuel => False
  end.
Proof.
  unfold lex. pose proof (lex_head_shrinks (skip_ws s)) as Hh.
  pose proof (skip_ws_length s).
  destruct (lex_head (skip_ws s)) as [[t s']| |]; auto.
  destruct (type t); auto; lia.
Qed.

Lemma Parser_init_remaining (s : list ascii) :
  match Parser_init s with
  | Ok p => remaining p <= List.length s
  | Raise _ => True
  | NoFuel => False
  end.
Proof.
  unfold Parser_init, next_token, chars_TokenSource.
  pose proof (lex_shrinks s) as Hs.
  destruct (lex s) as [[t s']| |]; simpl; auto.
  unfold remaining; simpl. destruct (type t); subst; simpl; lia.
Qed.

(** Eating a token strictly decreases what is left to consume. *)
Lemma eat_remaining (token_type : TokenType) (p : Parser (list ascii)) :
  token_type <> EOF ->
  match eat token_type p with
  | Ok p' => remaining p' < remaining p
  | Raise _ => True
  | NoFuel => False
  end.
Proof.
  intros Hne. unfold eat.
  destruct (TokenType_eqb _ _) eqn:Heq; [|exact I].
  unfold next_token, chars_TokenSource.
  pose proof (lex_shrinks (lexer p)) as Hs.
  destruct (lex (lexer p)) as [[t s']| |]; simpl; auto.
  unfold remaining; simpl.
  destruct (type (current_token p)), token_type; try discriminate;
    try congruence; destruct (type t); subst; simpl; lia.
Qed.

Lemma bounded_weaken (r : res (AST * Parser (list ascii))) (n m : nat) :
  bounded r n -> n <= m -> bounded r m.
Proof.
  destruct r as [[node p]| |]; simpl; auto. lia.
Qed.

Lemma bounded_bind_eat (token_type : TokenType) (p : Parser (list ascii))
  (k : Parser (list ascii) -> res (AST * Parser (list ascii))) (n : nat) :
  token_type <> EOF ->
  (forall q, remaining q < remaining p -> bounded (k q) n) ->
  bounded (bind (eat token_type p) k) n.
Proof.
  intros Hne Hk. pose proof (eat_remaining token_type p Hne) as He.
  destruct (eat token_type p); simpl; auto.
Qed.

Lemma bounded_bind (m : res (AST * Parser (list ascii)))
  (k : AST * Parser (list ascii) -> res (AST * Parser (list ascii)))
  (n n' : nat) :
  bounded m n ->
  (forall node q, remaining q <= n -> bounded (k (node, q)) n') ->
  bounded (bind m k) n'.
Proof.
  intros Hm Hk. destruct m as [[node q]| |]; simpl in *; auto.
Qed.

Section Bounded.

Variable e : Parser (list ascii) -> res (AST * Parser (list ascii)).
Variable N : nat.
Hypothesis rec_bounded : forall p,
  remaining p < N -> bounded (e p) (remaining p).

Lemma factor_with_bounded (p : Parser (list ascii)) :
  remaining p <= N -> bounded (factor_with e p) (remaining p).
Proof.
  intros HN. unfold factor_with.
  destruct (type (current_token p)); simpl; try lia.
  - apply bounded_bind_eat; [discriminate|]. intros q Hq. simpl. lia.
  - apply bounded_bind_eat; [discriminate|]. intros q Hq.
    apply bounded_bind with (n := remaining q); [apply rec_bounded; lia|].
    intros node r Hr.
    apply bounded_bind_eat; [discriminate|]. intros q' Hq'. simpl. lia.
Qed.

Lemma term_loop_bounded (fuel : nat) : forall (node : AST) (p : Parser (list ascii)),
  remaining p <= N -> remaining p < fuel ->
  bounded (term_loop e fuel node p) (remaining p).
Proof.
  induction fuel as [|fuel IH]; intros node p HN Hfuel; [lia|].
  simpl. destruct (type (current_token p)); simpl; try lia.
  all: apply bounded_bind_eat; [discriminate|]; intros q Hq;
    apply bounded_bind with (n := remaining q);
    [apply factor_with_bounded; lia|];
    intros rhs r Hr;
    apply bounded_weaken with (n := remaining r); [apply IH; lia|lia].
Qed.

Lemma term_with_bounded (fuel : nat) (p : Parser (list ascii)) :
  remaining p <= N -> remaining p < fuel ->
  bounded (term_with e fuel p) (remaining p).
Proof.
  intros HN Hfuel. unfold term_with.
  apply bounded_bind with (n := remaining p);
    [now apply factor_with_bounded|].
  intros node q Hq.
  apply bounded_weaken with (n := remaining q);
    [apply term_loop_bounded; lia|lia].
Qed.

Lemma expr_loop_bounded (fuel : nat) : forall (node : AST) (p : Parser (list ascii)),
  remaining p <= N -> remaining p < fuel ->
  bounded (expr_loop e fuel node p) (remaining p).
Proof.
  induction fuel as [|fuel IH]; intros node p HN Hfuel; [lia|].
  simpl. destruct (type (current_token p)); simpl; try lia.
  all: apply bounded_bind_eat; [discriminate|]; intros q Hq;
    apply bounded_bind with (n := remaining q);
    [apply term_with_bounded; lia|];
    intros rhs r Hr;
    apply bounded_weaken with (n := remaining r); [apply IH; lia|lia].
Qed.

Lemma expr_with_bounded (fuel : nat) (p : Parser (list ascii)) :
  remaining p <= N -> remaining p < fuel ->
  bounded (expr_with e fuel p) (remaining p).
Proof.
  intros HN Hfuel. unfold expr_with.
  apply bounded_bind with (n := remaining p);
    [now apply term_with_bounded|].
  intros node q Hq.
  apply bounded_weaken with (n := remaining q);
    [apply expr_loop_bounded; lia|lia].
Qed.

End Bounded.

Lemma expr_bounded (fuel : nat) : forall p : Parser (list ascii),
  remaining p < fuel -> bounded (expr fuel p) (remaining p).
Proof.
  induction fuel as [|fuel IH]; intros p Hfuel; [lia|].
  simpl. apply expr_with_bounded with (N := remaining p); [|lia|lia].
  intros q Hq. apply IH; lia.
Qed.

Lemma visit_no_NoFuel (node : AST) : visit node <> NoFuel.
Proof.
  induction node as [|t|lhs IHl op rhs IHr]; simpl; try discriminate.
  destruct (type op); try discriminate;
    destruct (visit lhs) as [a| |]; simpl; try congruence;
    destruct (visit rhs) as [b| |]; simpl; try congruence;
    destruct a, b; simpl; try discriminate.
  destruct (z0 =? 0)%Z; discriminate.
Qed.

Lemma run_no_NoFuel (fuel : nat) (s : list ascii) :
  List.length s < fuel -> run fuel s <> NoFuel.
Proof.
  intros Hfuel. unfold run.
  pose proof (Parser_init_remaining s) as Hp.
  destruct (Parser_init s) as [p| |]; simpl; try discriminate; [|contradiction].
  unfold interpret, parse.
  pose proof (expr_bounded fuel p ltac:(lia)) as He.
  destruct (expr fuel p) as [[node q]| |]; simpl; try discriminate;
    [apply visit_no_NoFuel|contradiction].
Qed.

(** ** The outcome of [evaluate] *)

Lemma evaluate_run (text : string) :
  text <> "" -> evaluate text = run (text_fuel text) (chars text).
Proof.
  apply evaluate_with_run.
Qed.

Lemma evaluate_with_stable (fuel : nat) (text : string) :
  text_fuel text <= fuel ->
  evaluate_with fuel text = evaluate text /\ evaluate text <> NoFuel.
Proof.
  intros Hfuel. unfold evaluate.
  destruct text as [|c s]; [split; [reflexivity|discriminate]|].
  rewrite !evaluate_with_run by discriminate.
  assert (Hrun : run (text_fuel (String c s)) (chars (String c s)) <> NoFuel).
  { apply run_no_NoFuel. unfold text_fuel. rewrite length_chars. lia. }
  split; [|exact Hrun].
  destruct (run_mono _ _ (chars (String c s)) Hfuel) as [Hno|Heq];
    [contradiction|now symmetry].
Qed.

Lemma parser_sim_rest (p : Parser Lexer) :
  parser_sim has_rest p (mkParser (rest (lexer p)) (current_token p)).
Proof.
  split; reflexivity.
Qed.

Lemma parser_sim_unconsumed (p : Parser Lexer) (q : Parser (list ascii)) :
  parser_sim has_rest p q -> unconsumed p = remaining q.
Proof.
  destruct q as [s t]. intros [Ht Hs]; simpl in *.
  unfold unconsumed, has_rest in *. now rewrite Ht, Hs.
Qed.

Lemma has_rest_sim (l : Lexer) (s : list ascii) :
  has_rest l s -> res_rel (token_sim has_rest) (next_token l) (next_token s).
Proof.
  intros <-. apply get_next_token_lex.
Qed.

(** In the program too, eating a token strictly decreases what is left
    to consume. *)
Lemma eat_unconsumed (token_type : TokenType) (p p' : Parser Lexer) :
  token_type <> EOF -> eat token_type p = Ok p' ->
  unconsumed p' < unconsumed p.
Proof.
  intros Hne Heat.
  pose proof (eat_sim has_rest has_rest_sim token_type p _
                (parser_sim_rest p)) as Hsim.
  pose proof (eat_remaining token_type
                (mkParser (rest (lexer p)) (current_token p)) Hne) as Hdec.
  rewrite Heat in Hsim.
  destruct (eat token_type (mkParser (rest (lexer p)) (current_token p)))
    as [q'| |]; simpl in Hsim; try contradiction.
  rewrite (parser_sim_unconsumed p' q' Hsim). exact Hdec.
Qed.

(** A run of [expr] that returns never leaves more than it found. *)
Lemma expr_unconsumed (fuel : nat) (p p' : Parser Lexer) (node : AST) :
  expr fuel p = Ok (node, p') -> unconsumed p' <= unconsumed p.
Proof.
  intros Hexpr.
  set (q := mkParser (rest (lexer p)) (current_token p)).
  pose proof (expr_sim has_rest has_rest_sim fuel p q (parser_sim_rest p))
    as Hsim.
  rewrite Hexpr in Hsim.
  destruct (expr fuel q) as [[node' q']| |] eqn:Hq; simpl in Hsim;
    try contradiction.
  destruct Hsim as [_ Hp']; simpl in Hp'.
  rewrite (parser_sim_unconsumed p' q' Hp').
  pose proof (expr_bounded (fuel + S (remaining q)) q ltac:(lia)) as Hb.
  destruct (expr_mono fuel (fuel + S (remaining q)) q ltac:(lia))
    as [Hno|Heq]; [congruence|].
  rewrite <- Heq, Hq in Hb. exact Hb.
Qed.

(** C8.  The pipeline terminates on every text: on the fuel [evaluate]
    computes from the length of the text, and on any larger amount, the
    run ends with a value or an exception, the same one, and never runs
    out of fuel.  The reason is the one given: what is left to consume,
    the characters not yet read and the token being looked at, strictly
    decreases each time the parser eats a token, which it does before
    every recursive call and every turn of a loop, and a rule that
    returns never leaves more than it found. *)
Theorem evaluate_terminates (text : string) (fuel : nat) :
  text_fuel text <= fuel ->
  evaluate text <> NoFuel
  /\ evaluate_with fuel text = evaluate text
  /\ (forall (token_type : TokenType) (p p' : Parser Lexer),
        token_type <> EOF -> eat token_type p = Ok p' ->
        unconsumed p' < unconsumed p)
  /\ (forall (n : nat) (p p' : Parser Lexer) (node : AST),
        expr n p = Ok (node, p') -> unconsumed p' <= unconsumed p).
Proof.
  intros Hfuel.
  destruct (evaluate_with_stable fuel text Hfuel) as [Hstable Hends].
  split; [exact Hends|]. split; [exact Hstable|]. split.
  - intros token_type p p'. apply eat_unconsumed.
  - intros n p p' node. apply expr_unconsumed.
Qed.

Lemma evaluate_terminates_witness :
  evaluate "((1+2)*3" <> NoFuel
  /\ evaluate_with 50 "((1+2)*3" = evaluate "((1+2)*3"
  /\ (forall (token_type : TokenType) (p p' : Parser Lexer),
        token_type <> EOF -> eat token_type p = Ok p' ->
        unconsumed p' < unconsumed p)
  /\ (forall (n : nat) (p p' : Parser Lexer) (node : AST),
        expr n p = Ok (node, p') -> unconsumed p' <= unconsumed p).
Proof.
  apply (evaluate_terminates "((1+2)*3" 50). vm_compute. lia.
Defined.

(** C9.  The constructor of the lexer indexes the first character of the
    text: on the empty string it raises [IndexError], so [evaluate]
    ends with that exception, whatever the fuel, before any token is
    read; it is not one of the exceptions the program raises itself, nor
    [ZeroDivisionError]. *)
Theorem evaluate_empty :
  Lexer_init "" = Raise IndexError
  /\ (forall fuel, evaluate_with fuel "" = Raise IndexError)
  /\ evaluate "" = Raise IndexError
  /\ IndexError <> Exception "Invalid character"
  /\ IndexError <> Exception "Invalid syntax"
  /\ is_ArithmeticError IndexError = false.
Proof.
  repeat split; try reflexivity; discriminate.
Qed.

(** ** Division *)

Lemma visit_div (a b : Z) :
  b <> 0%Z ->
  visit (BinOp (Num_of a) DIV_token (Num_of b)) = Ok (VInt (a / b)).
Proof.
  intros Hb. simpl. destruct (Z.eqb_spec b 0); [contradiction|reflexivity].
Qed.

(** C2, as the code has it.  [evaluate "7 / 2"] is 3.  The grammar has
    no unary minus, so a negative dividend has to come from a
    subtraction: [evaluate "(0 - 7) / 2"] is -4.  In general the visit
    of a division of [a] by [b <> 0] returns the quotient rounded
    towards minus infinity. *)
Theorem division_floors (a b : Z) :
  b <> 0%Z ->
  exists q : Z,
    visit (BinOp (Num_of a) DIV_token (Num_of b)) = Ok (VInt q)
    /\ ((0 < b -> b * q <= a < b * q + b)
        /\ (b < 0 -> b * q + b < a <= b * q))%Z
    /\ evaluate "7 / 2" = Ok (VInt 3)
    /\ evaluate "(0 - 7) / 2" = Ok (VInt (-4)).
Proof.
  intros Hb. exists (a / b)%Z.
  split; [now apply visit_div|].
  split; [|split; reflexivity].
  split; intros Hsign.
  - pose proof (Z.mul_div_le a b Hsign).
    pose proof (Z.mul_succ_div_gt a b Hsign). lia.
  - pose proof (Z.div_mod a b Hb) as Hdm.
    pose proof (Z.mod_neg_bound a b Hsign). lia.
Qed.

Lemma division_floors_witness :
  exists q : Z,
    visit (BinOp (Num_of (-7)) DIV_token (Num_of 2)) = Ok (VInt q)
    /\ ((0 < 2 -> 2 * q <= -7 < 2 * q + 2)
        /\ (2 < 0 -> 2 * q + 2 < -7 <= 2 * q))%Z
    /\ evaluate "7 / 2" = Ok (VInt 3)
    /\ evaluate "(0 - 7) / 2" = Ok (VInt (-4)).
Proof.
  apply (division_floors (-7) 2). lia.
Defined.

(** On ["-7 / 2"] the run ends with an exception, not with -4. *)
Lemma unary_minus_no_value :
  evaluate "-7 / 2" <> Ok (VInt (-4))
  /\ evaluate "-7 / 2" = Raise (Exception "No visit_NoneType method").
Proof.
  split; [discriminate|reflexivity].
Qed.

(** ** [factor] on a token that starts no factor *)

Lemma factor_other_lookahead {L : Type} `{TokenSource L}
  (fuel : nat) (p : Parser L) :
  type (current_token p) <> INTEGER ->
  type (current_token p) <> LPAREN ->
  factor fuel p = Ok (NoneNode, p).
Proof.
  intros Hint Hpar. unfold factor, factor_with.
  destruct (type (current_token p)); congruence.
Qed.

(** C3, at the input ["+3"].  The parser starts on the token [PLUS];
    [factor] raises nothing there and returns [None] without moving.
    The tree then has [None] as its left child, and the run ends in
    [generic_visit], not in the parser's "Invalid syntax".  The same
    happens at the end of the input, as on ["1 +"]. *)
Theorem factor_returns_None :
  (p <- parser_of "+3" ;; Ok (current_token p)) = Ok PLUS_token
  /\ (p <- parser_of "+3" ;; '(node, p') <- factor (text_fuel "+3") p ;;
      Ok (node, current_token p')) = Ok (NoneNode, PLUS_token)
  /\ parse_text "+3" = Ok (BinOp NoneNode PLUS_token (Num_of 3))
  /\ evaluate "+3" = Raise (Exception "No visit_NoneType method")
  /\ evaluate "1 +" = Raise (Exception "No visit_NoneType method")
  /\ evaluate "+3" <> Raise (Exception "Invalid syntax").
Proof.
  repeat split; try reflexivity; discriminate.
Qed.

(** C4, at the input ["1 +"].  Parsing returns a [BinOp] whose right
    child is [None]: the tree is not complete. *)
Theorem parse_partial_node :
  parse_text "1 +" = Ok (BinOp (Num_of 1) PLUS_token NoneNode)
  /\ complete (BinOp (Num_of 1) PLUS_token NoneNode) = false.
Proof.
  split; reflexivity.
Qed.

(** A tree that [visit] walks to a value has no [None] in it. *)
Lemma visit_value_complete (node : AST) (v : Value) :
  visit node = Ok v -> v <> VNone -> complete node = true.
Proof.
  revert v; induction node as [|t|lhs IHl op rhs IHr]; intros v; simpl.
  - discriminate.
  - reflexivity.
  - destruct (type op); try (intros [= <-]; congruence);
      destruct (visit lhs) as [a| |]; simpl; try discriminate;
      destruct (visit rhs) as [b| |]; simpl; try discriminate;
      intros Hv Hne; destruct a, b; simpl in Hv; try discriminate;
      rewrite (IHl _ eq_refl), (IHr _ eq_refl); auto; discriminate.
Qed.

(** ** Characters without a rule *)

Lemma skip_ws_app (ws s : list ascii) :
  forallb isspace ws = true -> skip_ws (ws ++ s) = skip_ws s.
Proof.
  induction ws as [|c ws IH]; simpl; [reflexivity|].
  intros Hws. apply andb_true_iff in Hws as [Hc Hws]. rewrite Hc. auto.
Qed.

Lemma lex_unknown (ws : list ascii) (c : ascii) (r : list ascii) :
  forallb isspace ws = true -> unknown c = true ->
  lex (ws ++ c :: r) = Lexer_error.
Proof.
  intros Hws Hc. unfold lex. rewrite (skip_ws_app _ _ Hws).
  unfold unknown in Hc.
  repeat (apply andb_true_iff in Hc as [Hc ?]).
  repeat match goal with
         | Hn : negb _ = true |- _ => apply negb_true_iff in Hn
         end.
  simpl. rewrite Hc. simpl.
  repeat match goal with
         | Hn : _ = false |- _ => rewrite Hn; clear Hn
         end.
  reflexivity.
Qed.

(** C7, as the code has it.  When the next character that is not a
    blank is one the lexer has no rule for, [get_next_token] raises
    [Exception("Invalid character")]: the exception holds this message
    and nothing else. *)
Theorem get_next_token_unknown
  (l : Lexer) (ws : list ascii) (c : ascii) (r : list ascii) :
  rest l = (ws ++ c :: r)%list ->
  forallb isspace ws = true ->
  unknown c = true ->
  get_next_token l = Raise (Exception "Invalid character").
Proof.
  intros Hrest Hws Hc.
  pose proof (get_next_token_lex l) as Hlex.
  rewrite Hrest, (lex_unknown ws c r Hws Hc) in Hlex.
  destruct (get_next_token l); simpl in Hlex; try contradiction.
  now subst.
Qed.

Lemma get_next_token_unknown_witness :
  get_next_token (mkLexer "1 @ 2" 1 (Some " "%char))
  = Raise (Exception "Invalid character").
Proof.
  apply (get_next_token_unknown (mkLexer "1 @ 2" 1 (Some " "%char))
           [" "%char] "@"%char [" "%char; "2"%char]);
    reflexivity.
Defined.

(** The exception for ['@'] at index 2 of ["1 @ 2"] is the exception for
    ['#'] at index 3 of ["12 # 3"]: nothing read off the exception can
    tell the character or its position. *)
Lemma lex_error_carries_nothing :
  ~ exists offender : exn -> ascii * nat,
      (forall e, evaluate "1 @ 2" = Raise e -> offender e = ("@"%char, 2))
      /\ (forall e, evaluate "12 # 3" = Raise e -> offender e = ("#"%char, 3)).
Proof.
  intros (offender & H1 & H2).
  specialize (H1 (Exception "Invalid character") eq_refl).
  specialize (H2 (Exception "Invalid character") eq_refl).
  rewrite H1 in H2. discriminate.
Qed.

(** ** Blanks between tokens *)

Lemma span_digits_other (s : list ascii) :
  starts_digit s = false -> span_digits s = ([], s).
Proof.
  destruct s as [|c s]; simpl; [reflexivity|]. now intros ->.
Qed.

Lemma span_digits_equiv (s1 s2 : list ascii) :
  ws_equiv s1 s2 ->
  starts_digit s1 = starts_digit s2 ->
  fst (span_digits s1) = fst (span_digits s2)
  /\ ws_equiv (snd (span_digits s1)) (snd (span_digits s2)).
Proof.
  induction 1 as [|c s1 s2 Hc Heq IH|c s1 s2 Hc Heq IH|c s1 s2 Heq IH Hd];
    intros Hstart.
  - split; [reflexivity|constructor].
  - simpl in Hstart. rewrite (isspace_not_isdigit c Hc) in Hstart.
    simpl. rewrite (isspace_not_isdigit c Hc).
    rewrite (span_digits_other s2) by congruence.
    split; [reflexivity|]. simpl. now apply ws_left.
  - simpl in Hstart. rewrite (isspace_not_isdigit c Hc) in Hstart.
    simpl. rewrite (isspace_not_isdigit c Hc).
    rewrite (span_digits_other s1) by congruence.
    split; [reflexivity|]. simpl. now apply ws_right.
  - simpl. destruct (isdigit c) eqn:Hdc.
    + destruct (IH (Hd eq_refl)) as [Hfst Hsnd].
      destruct (span_digits s1), (span_digits s2); simpl in *.
      split; [congruence|exact Hsnd].
    + split; [reflexivity|]. simpl. apply ws_both; [exact Heq|congruence].
Qed.

Lemma lex_blank (c : ascii) (s : list ascii) :
  isspace c = true -> lex (c :: s) = lex s.
Proof.
  intros Hc. unfold lex. simpl. now rewrite Hc.
Qed.

Lemma lex_equiv (s1 s2 : list ascii) :
  ws_equiv s1 s2 -> res_rel (token_sim ws_equiv) (lex s1) (lex s2).
Proof.
  induction 1 as [|c s1 s2 Hc Heq IH|c s1 s2 Hc Heq IH|c s1 s2 Heq IH Hd].
  - split; [reflexivity|constructor].
  - now rewrite lex_blank.
  - now rewrite lex_blank.
  - destruct (isspace c) eqn:Hsp; [now rewrite !lex_blank|].
    unfold lex. simpl skip_ws. rewrite Hsp. unfold lex_head.
    destruct (isdigit c) eqn:Hdc.
    + destruct (span_digits_equiv (c :: s1) (c :: s2)) as [Hfst Hsnd];
        [apply ws_both; auto|reflexivity|].
      rewrite Hfst.
      destruct (int _); simpl; auto. split; [reflexivity|exact Hsnd].
    + repeat match goal with
             | |- context [ascii_eqb c ?k] => destruct (ascii_eqb c k)
             end; simpl; auto; (split; [reflexivity|exact Heq]).
Qed.

Lemma run_equiv (fuel : nat) (s1 s2 : list ascii) :
  ws_equiv s1 s2 -> run fuel s1 = run fuel s2.
Proof.
  intros Heq. unfold run. apply res_rel_eq.
  apply res_rel_bind with (P := parser_sim ws_equiv).
  - apply Parser_init_sim; [|exact Heq]. intros l1 l2. apply lex_equiv.
  - intros p1 p2 Hp.
    rewrite (interpret_sim ws_equiv) with (p2 := p2); auto.
    + destruct (interpret fuel p2); simpl; auto.
    + intros l1 l2. apply lex_equiv.
Qed.

Lemma run_stable (fuel : nat) (s : list ascii) :
  List.length s < fuel -> run fuel s = run (S (List.length s)) s.
Proof.
  intros Hfuel.
  destruct (run_mono (S (List.length s)) fuel s Hfuel) as [Hno|Heq].
  - exfalso. revert Hno. apply run_no_NoFuel. lia.
  - now symmetry.
Qed.

(** C6, as the code has it.  Two texts, neither empty, that differ in
    blanks only, with no run of digits split or joined, evaluate to the
    same outcome. *)
Theorem evaluate_whitespace (text1 text2 : string) :
  text1 <> "" -> text2 <> "" ->
  ws_equiv (chars text1) (chars text2) ->
  evaluate text1 = evaluate text2.
Proof.
  intros Hne1 Hne2 Heq.
  rewrite !evaluate_run by assumption.
  rewrite (run_stable (text_fuel text1)), (run_stable (text_fuel text2))
    by (unfold text_fuel; rewrite length_chars; lia).
  pose (n := S (Nat.max (List.length (chars text1))
                        (List.length (chars text2)))).
  rewrite <- (run_stable n (chars text1)) by (unfold n; lia).
  rewrite <- (run_stable n (chars text2)) by (unfold n; lia).
  now apply run_equiv.
Qed.

Ltac ws_equiv_tac :=
  repeat first
    [ apply ws_nil
    | apply ws_left; [reflexivity|]
    | apply ws_right; [reflexivity|]
    | apply ws_both;
      [|vm_compute; intros Hd; first [reflexivity|discriminate Hd]] ].

Lemma evaluate_whitespace_witness :
  evaluate "  4+2 *3-6/2 " = evaluate "4+2*3-6/2".
Proof.
  apply (evaluate_whitespace "  4+2 *3-6/2 " "4+2*3-6/2");
    [discriminate|discriminate|].
  unfold chars; simpl. ws_equiv_tac.
Defined.

(** The blank of ["1 2"] stands between two tokens; without it the text
    is the single token 12 and the outcome changes. *)
Lemma blank_between_integers :
  evaluate "1 2" = Ok (VInt 1)
  /\ evaluate "12" = Ok (VInt 12)
  /\ evaluate "1 2" <> evaluate "12".
Proof.
  repeat split; discriminate.
Qed.

(** [ws_equiv] holds between a text and itself, and between a text with
    blanks inserted at one place and the text without them, unless the
    place is inside a run of digits. *)
Lemma ws_equiv_refl (s : list ascii) : ws_equiv s s.
Proof.
  induction s as [|c s IH]; [apply ws_nil|apply ws_both; auto].
Qed.

Lemma ws_equiv_blanks (ws s : list ascii) :
  forallb isspace ws = true -> ws_equiv (ws ++ s) s.
Proof.
  induction ws as [|c ws IH]; simpl; [intros _; apply ws_equiv_refl|].
  intros Hws. apply andb_true_iff in Hws as [Hc Hws].
  apply ws_left; auto.
Qed.

Lemma starts_digit_blanks (ws s : list ascii) :
  forallb isspace ws = true -> starts_digit s = false ->
  starts_digit (ws ++ s) = false.
Proof.
  destruct ws as [|c ws]; simpl; [auto|].
  intros Hws _. apply andb_true_iff in Hws as [Hc _].
  now apply isspace_not_isdigit.
Qed.

Lemma ws_equiv_insert (l ws r : list ascii) :
  forallb isspace ws = true ->
  ends_digit l && starts_digit r = false ->
  ws_equiv (l ++ ws ++ r) (l ++ r).
Proof.
  intros Hws. induction l as [|c l IH]; intros Hj.
  - simpl. now apply ws_equiv_blanks.
  - simpl. apply ws_both.
    + apply IH. destruct l; [reflexivity|exact Hj].
    + intros Hc. destruct l as [|d l]; [|reflexivity].
      simpl in *. rewrite Hc in Hj. simpl in Hj. rewrite Hj.
      now apply starts_digit_blanks.
Qed.

Lemma evaluate_insert_whitespace (l ws r : string) :
  l ++ r <> "" ->
  forallb isspace (chars ws) = true ->
  ends_digit (chars l) && starts_digit (chars r) = false ->
  evaluate (l ++ ws ++ r) = evaluate (l ++ r).
Proof.
  intros Hne Hws Hj.
  assert (Heq : ws_equiv (chars (l ++ ws ++ r)) (chars (l ++ r))).
  { rewrite !chars_app. now apply ws_equiv_insert. }
  apply evaluate_whitespace; [|exact Hne|exact Heq].
  destruct l as [|c l]; [|discriminate].
  destruct ws as [|c ws]; [exact Hne|discriminate].
Qed.

(** ** Integer literals *)

Lemma of_uint_digit (k : uint -> uint) (u : uint) :
  rev (k u) = revapp u (k Nil) ->
  Pos.of_uint (k u)
  = (Pos.of_uint u + DecimalPos.Unsigned.of_lu (k Nil)
                     * 10 ^ DecimalPos.Unsigned.usize u)%N.
Proof.
  intros Hrev.
  rewrite (DecimalPos.Unsigned.of_uint_alt (k u)), Hrev.
  rewrite DecimalPos.Unsigned.of_lu_revapp.
  now rewrite <- DecimalPos.Unsigned.of_uint_alt.
Qed.

Lemma int_acc_uint (s : string) : forall (u : uint) (acc : N),
  NilEmpty.uint_of_string s = Some u ->
  int_acc s (Z.of_N acc)
  = Ok (Z.of_N (acc * 10 ^ DecimalPos.Unsigned.usize u + Pos.of_uint u)).
Proof.
  induction s as [|c s IH]; intros u acc Hu; simpl in Hu.
  - injection Hu as <-. simpl. f_equal. lia.
  - destruct (NilEmpty.uint_of_string s) as [u'|]; [|discriminate].
    specialize (IH u').
    apply uint_of_char_spec in Hu.
    repeat destruct Hu as [[-> ->]|Hu]; try destruct Hu as [-> ->].
    all: match goal with
         | |- int_acc (String ?c ?s0) _
              = Ok (Z.of_N (_ + Pos.of_uint (?k ?u0))) =>
             let d := eval vm_compute in (N.of_nat (nat_of_ascii c - 48)) in
             change (int_acc (String c s0) (Z.of_N acc))
               with (int_acc s0 (10 * Z.of_N acc + Z.of_N d)%Z);
             replace (10 * Z.of_N acc + Z.of_N d)%Z
               with (Z.of_N (10 * acc + d)) by lia;
             rewrite (IH (10 * acc + d)%N eq_refl);
             rewrite (of_uint_digit k u0) by reflexivity
         end.
    all: simpl DecimalPos.Unsigned.usize; simpl DecimalPos.Unsigned.of_lu;
      rewrite N.pow_succ_r'; f_equal; f_equal; lia.
Qed.

Lemma int_literal (s : string) (n : Z) :
  literal_value s = Some n -> int s = Ok n.
Proof.
  unfold literal_value, NilZero.uint_of_string.
  destruct s as [|c s]; [discriminate|].
  destruct (NilEmpty.uint_of_string (String c s)) as [u|] eqn:Hu;
    [|discriminate].
  intros [= <-]. unfold int.
  change (int_acc (String c s) 0) with (int_acc (String c s) (Z.of_N 0)).
  rewrite (int_acc_uint _ u 0 Hu). reflexivity.
Qed.

Lemma is_decimal_isdigit (c : ascii) : is_decimal c = true -> isdigit c = true.
Proof.
  unfold isdigit. now intros ->.
Qed.

Lemma is_decimal_not_isspace (c : ascii) :
  is_decimal c = true -> isspace c = false.
Proof.
  intros Hc. destruct (isspace c) eqn:Hsp; [|reflexivity].
  apply isspace_not_isdigit in Hsp.
  apply is_decimal_isdigit in Hc. congruence.
Qed.

Lemma literal_chars (s : string) : forall u : uint,
  NilEmpty.uint_of_string s = Some u -> forallb is_decimal (chars s) = true.
Proof.
  induction s as [|c s IH]; intros u Hu; [reflexivity|].
  simpl in Hu.
  destruct (NilEmpty.uint_of_string s) as [u'|]; [|discriminate].
  apply uint_of_char_spec in Hu.
  change (chars (String c s)) with (c :: chars s). simpl forallb.
  rewrite (IH u' eq_refl), andb_true_r.
  repeat destruct Hu as [[-> _]|Hu]; try destruct Hu as [-> _]; reflexivity.
Qed.

Lemma span_digits_app (ds r : list ascii) :
  forallb is_decimal ds = true -> starts_digit r = false ->
  span_digits (ds ++ r) = (ds, r).
Proof.
  intros Hds Hr. induction ds as [|c ds IH]; simpl.
  - now apply span_digits_other.
  - simpl in Hds. apply andb_true_iff in Hds as [Hc Hds].
    now rewrite (is_decimal_isdigit c Hc), (IH Hds).
Qed.

(** A literal in front of something that is not a digit is one
    [INTEGER] token with the value the literal denotes. *)
Lemma lex_literal (s : string) (n : Z) (r : list ascii) :
  literal_value s = Some n -> starts_digit r = false ->
  lex (chars s ++ r) = Ok (INTEGER_token n, r).
Proof.
  intros Hn Hr. pose proof (int_literal s n Hn) as Hint.
  unfold literal_value, NilZero.uint_of_string in Hn.
  destruct s as [|c s]; [discriminate|].
  destruct (NilEmpty.uint_of_string (String c s)) as [u|] eqn:Hu;
    [|discriminate].
  pose proof (literal_chars _ u Hu) as Hds.
  pose proof (span_digits_app _ r Hds Hr) as Hspan.
  change (chars (String c s)) with (c :: chars s) in *.
  simpl in Hds. apply andb_true_iff in Hds as [Hc Hds].
  unfold lex. cbn [List.app skip_ws].
  rewrite (is_decimal_not_isspace c Hc).
  unfold lex_head. rewrite (is_decimal_isdigit c Hc).
  cbn [List.app] in Hspan. rewrite Hspan. cbn [fst snd].
  change (c :: chars s) with (chars (String c s)).
  unfold chars. rewrite string_of_list_ascii_of_string, Hint.
  reflexivity.
Qed.

Lemma literal_nonempty (s : string) (n : Z) :
  literal_value s = Some n -> s <> "".
Proof.
  destruct s; [discriminate|discriminate].
Qed.

(** ** Running the parser on a text with literals *)

Lemma chars_cons (c : ascii) (s : string) : chars (String c s) = c :: chars s.
Proof.
  reflexivity.
Qed.

Lemma lex_nil : lex [] = Ok (mkToken EOF VNone, []).
Proof.
  reflexivity.
Qed.

Lemma lex_plus (r : list ascii) : lex ("+"%char :: r) = Ok (PLUS_token, r).
Proof.
  reflexivity.
Qed.

Lemma lex_minus (r : list ascii) : lex ("-"%char :: r) = Ok (MINUS_token, r).
Proof.
  reflexivity.
Qed.

Lemma lex_mul (r : list ascii) : lex ("*"%char :: r) = Ok (MUL_token, r).
Proof.
  reflexivity.
Qed.

Lemma lex_div (r : list ascii) : lex ("/"%char :: r) = Ok (DIV_token, r).
Proof.
  reflexivity.
Qed.

Lemma lex_lparen (r : list ascii) :
  lex ("("%char :: r) = Ok (mkToken LPAREN (VStr "("), r).
Proof.
  reflexivity.
Qed.

Lemma lex_rparen (r : list ascii) :
  lex (")"%char :: r) = Ok (mkToken RPAREN (VStr ")"), r).
Proof.
  reflexivity.
Qed.

Lemma lex_literal_end (s : string) (n : Z) :
  literal_value s = Some n -> lex (chars s) = Ok (INTEGER_token n, []).
Proof.
  intros Hn. rewrite <- (List.app_nil_r (chars s)). now apply lex_literal.
Qed.

(** An outcome reached on three units of fuel is the outcome of
    [evaluate]. *)
Lemma evaluate_fuel3 (text : string) (r : res Value) :
  text <> "" -> run 3 (chars text) = r -> r <> NoFuel -> evaluate text = r.
Proof.
  intros Hne Hrun Hr. rewrite evaluate_run by exact Hne.
  destruct (run_mono 3 (text_fuel text) (chars text)) as [Hno|Heq].
  - unfold text_fuel. destruct text; [congruence|simpl; lia].
  - congruence.
  - congruence.
Qed.

(** The rules of the parser, one step at a time, over a list of
    characters. *)
Section Steps.

Variable e : Parser (list ascii) -> res (AST * Parser (list ascii)).

Lemma eat_step (token_type : TokenType) (s s' : list ascii) (tok t : Token) :
  type tok = token_type -> lex s = Ok (t, s') ->
  eat token_type (mkParser s tok) = Ok (mkParser s' t).
Proof.
  intros <- Hlex. unfold eat. cbn [current_token lexer].
  change (next_token s) with (lex s). rewrite Hlex.
  now destruct (type tok).
Qed.

Lemma factor_INTEGER (s s' : list ascii) (tok t : Token) :
  type tok = INTEGER -> lex s = Ok (t, s') ->
  factor_with e (mkParser s tok) = Ok (Num tok, mkParser s' t).
Proof.
  intros Htok Hlex. unfold factor_with. cbn [current_token]. rewrite Htok.
  now rewrite (eat_step INTEGER s s' tok t Htok Hlex).
Qed.

Lemma factor_LPAREN (s s' : list ascii) (tok t : Token) :
  type tok = LPAREN -> lex s = Ok (t, s') ->
  factor_with e (mkParser s tok)
  = '(node, p) <- e (mkParser s' t) ;; p <- eat RPAREN p ;; Ok (node, p).
Proof.
  intros Htok Hlex. unfold factor_with. cbn [current_token]. rewrite Htok.
  now rewrite (eat_step LPAREN s s' tok t Htok Hlex).
Qed.

Lemma term_loop_step (fuel : nat) (node : AST) (s s' : list ascii)
  (tok t : Token) :
  type tok = MUL \/ type tok = DIV -> lex s = Ok (t, s') ->
  term_loop e (S fuel) node (mkParser s tok)
  = '(rhs, p) <- factor_with e (mkParser s' t) ;;
    term_loop e fuel (BinOp node tok rhs) p.
Proof.
  intros [Htok|Htok] Hlex; cbn [term_loop current_token]; rewrite Htok.
  - now rewrite (eat_step MUL s s' tok t Htok Hlex).
  - now rewrite (eat_step DIV s s' tok t Htok Hlex).
Qed.

Lemma term_loop_exit (fuel : nat) (node : AST) (p : Parser (list ascii)) :
  type (current_token p) <> MUL -> type (current_token p) <> DIV ->
  term_loop e (S fuel) node p = Ok (node, p).
Proof.
  intros Hm Hd. cbn [term_loop].
  destruct (type (current_token p)); congruence.
Qed.

Lemma expr_loop_step (fuel : nat) (node : AST) (s s' : list ascii)
  (tok t : Token) :
  type tok = PLUS \/ type tok = MINUS -> lex s = Ok (t, s') ->
  expr_loop e (S fuel) node (mkParser s tok)
  = '(rhs, p) <- term_with e (S fuel) (mkParser s' t) ;;
    expr_loop e fuel (BinOp node tok rhs) p.
Proof.
  intros [Htok|Htok] Hlex; cbn [expr_loop current_token]; rewrite Htok.
  - now rewrite (eat_step PLUS s s' tok t Htok Hlex).
  - now rewrite (eat_step MINUS s s' tok t Htok Hlex).
Qed.

Lemma expr_loop_exit (fuel : nat) (node : AST) (p : Parser (list ascii)) :
  type (current_token p) <> PLUS -> type (current_token p) <> MINUS ->
  expr_loop e (S fuel) node p = Ok (node, p).
Proof.
  intros Hp Hm. cbn [expr_loop].
  destruct (type (current_token p)); congruence.
Qed.

End Steps.

Lemma expr_S (fuel : nat) (p : Parser (list ascii)) :
  expr (S fuel) p = expr_with (expr fuel) (S fuel) p.
Proof.
  reflexivity.
Qed.

Ltac lex_solve :=
  repeat rewrite lex_blank by reflexivity;
  first
    [ apply lex_plus | apply lex_minus | apply lex_mul | apply lex_div
    | apply lex_lparen | apply lex_rparen | apply lex_nil
    | apply lex_literal; [eassumption|reflexivity || assumption]
    | apply lex_literal_end; eassumption ].

Ltac parser_steps :=
  repeat first
    [ rewrite expr_S
    | progress unfold expr_with, term_with
    | erewrite factor_INTEGER by (reflexivity || lex_solve)
    | erewrite factor_LPAREN by (reflexivity || lex_solve)
    | erewrite eat_step by (reflexivity || lex_solve)
    | erewrite term_loop_step by ((left; reflexivity) || (right; reflexivity) || lex_solve)
    | erewrite expr_loop_step by ((left; reflexivity) || (right; reflexivity) || lex_solve)
    | rewrite term_loop_exit by discriminate
    | rewrite expr_loop_exit by discriminate
    | progress cbn [bind] ].

Ltac run_text :=
  apply evaluate_fuel3;
  [ try discriminate;
    match goal with
    | H : literal_value ?s = Some _ |- _ =>
        let Hne := fresh in
        pose proof (literal_nonempty _ _ H) as Hne;
        destruct s; [congruence|discriminate]
    end
  | cbn [append]; repeat (rewrite chars_app || rewrite chars_cons);
    unfold run, Parser_init;
    change (@next_token (list ascii) _) with lex;
    match goal with
    | |- context [lex ?s] =>
        let H := fresh in
        eassert (H : lex s = _) by lex_solve; rewrite H; clear H
    end;
    cbn [bind]; unfold interpret, parse;
    parser_steps
  | discriminate ].

(** ** One operator between two integers *)

(** C1.  For literals [sa] and [sb] denoting [a] and [b], the texts
    ["a + b"], ["a - b"] and ["a * b"] evaluate to the sum, the
    difference and the product; ["a / b"] evaluates to the quotient
    rounded down when [b] is not zero, and raises [ZeroDivisionError],
    an [ArithmeticError], when it is. *)
Theorem evaluate_binary (sa sb : string) (a b : Z) :
  literal_value sa = Some a -> literal_value sb = Some b ->
  evaluate (sa ++ " + " ++ sb) = Ok (VInt (a + b))
  /\ evaluate (sa ++ " - " ++ sb) = Ok (VInt (a - b))
  /\ evaluate (sa ++ " * " ++ sb) = Ok (VInt (a * b))
  /\ (b <> 0%Z ->
      evaluate (sa ++ " / " ++ sb) = Ok (VInt (a / b))
      /\ (b * (a / b) <= a < b * (a / b) + b)%Z)
  /\ (b = 0%Z ->
      evaluate (sa ++ " / " ++ sb) = Raise ZeroDivisionError
      /\ is_ArithmeticError ZeroDivisionError = true).
Proof.
  intros Ha Hb.
  assert (Hpos : (0 <= b)%Z).
  { unfold literal_value in Hb.
    destruct (NilZero.uint_of_string sb); [|discriminate].
    injection Hb as <-. lia. }
  split; [|split; [|split; [|split]]].
  1-3: run_text; reflexivity.
  - intros Hnz. split.
    + run_text. cbn [visit type value bind INTEGER_token py_floordiv].
      destruct (Z.eqb_spec b 0) as [Hz|_]; [contradiction|reflexivity].
    + split; [apply Z.mul_div_le; lia|].
      pose proof (Z.mul_succ_div_gt a b). lia.
  - intros Hz. split; [|reflexivity].
    run_text. cbn [visit type value bind INTEGER_token py_floordiv].
    now rewrite Hz.
Qed.

Lemma evaluate_binary_witness :
  evaluate ("17" ++ " + " ++ "005") = Ok (VInt (17 + 5))
  /\ evaluate ("17" ++ " - " ++ "005") = Ok (VInt (17 - 5))
  /\ evaluate ("17" ++ " * " ++ "005") = Ok (VInt (17 * 5))
  /\ (5%Z <> 0%Z ->
      evaluate ("17" ++ " / " ++ "005") = Ok (VInt (17 / 5))
      /\ (5 * (17 / 5) <= 17 < 5 * (17 / 5) + 5)%Z)
  /\ (5%Z = 0%Z ->
      evaluate ("17" ++ " / " ++ "005") = Raise ZeroDivisionError
      /\ is_ArithmeticError ZeroDivisionError = true).
Proof.
  apply (evaluate_binary "17" "005" 17 5); reflexivity.
Defined.

(** ** Precedence *)

(** C5.  Multiplication and division bind tighter than addition and
    subtraction, and parentheses override this.  For literals denoting
    [a], [b] and [c]: ["a + b * c"] is [a + (b * c)] and ["a * b + c"] is
    [(a * b) + c], while ["(a + b) * c"] is [(a + b) * c]; the same holds
    with subtraction and, for a divisor that is not zero, division.  At
    2, 3 and 4 these are [2 + 3 * 4 = 14] and [(2 + 3) * 4 = 20]. *)
Theorem precedence (sa sb sc : string) (a b c : Z) :
  literal_value sa = Some a ->
  literal_value sb = Some b ->
  literal_value sc = Some c ->
  evaluate (sa ++ " + " ++ sb ++ " * " ++ sc) = Ok (VInt (a + b * c))
  /\ evaluate ("(" ++ sa ++ " + " ++ sb ++ ") * " ++ sc)
     = Ok (VInt ((a + b) * c))
  /\ evaluate (sa ++ " * " ++ sb ++ " + " ++ sc) = Ok (VInt (a * b + c))
  /\ evaluate (sa ++ " * (" ++ sb ++ " + " ++ sc ++ ")")
     = Ok (VInt (a * (b + c)))
  /\ evaluate (sa ++ " - " ++ sb ++ " * " ++ sc) = Ok (VInt (a - b * c))
  /\ evaluate ("(" ++ sa ++ " - " ++ sb ++ ") * " ++ sc)
     = Ok (VInt ((a - b) * c))
  /\ (c <> 0%Z ->
      evaluate (sa ++ " + " ++ sb ++ " / " ++ sc) = Ok (VInt (a + b / c))
      /\ evaluate ("(" ++ sa ++ " + " ++ sb ++ ") / " ++ sc)
         = Ok (VInt ((a + b) / c))
      /\ evaluate (sa ++ " - " ++ sb ++ " / " ++ sc) = Ok (VInt (a - b / c))).
Proof.
  intros Ha Hb Hc.
  repeat split; try intros Hnz.
  all: run_text.
  all: cbn [visit type value bind INTEGER_token
            py_add py_sub py_mul py_floordiv];
    try (destruct (Z.eqb_spec c 0) as [Hz|_]; [contradiction|]);
    reflexivity.
Qed.

Lemma precedence_witness :
  evaluate "2 + 3 * 4" = Ok (VInt 14)
  /\ evaluate "(2 + 3) * 4" = Ok (VInt 20)
  /\ evaluate "2 * 3 + 4" = Ok (VInt 10)
  /\ evaluate "2 * (3 + 4)" = Ok (VInt 14)
  /\ evaluate "2 - 3 * 4" = Ok (VInt (-10))
  /\ evaluate "(2 - 3) * 4" = Ok (VInt (-4))
  /\ (4%Z <> 0%Z ->
      evaluate "2 + 3 / 4" = Ok (VInt 2)
      /\ evaluate "(2 + 3) / 4" = Ok (VInt 1)
      /\ evaluate "2 - 3 / 4" = Ok (VInt 2)).
Proof.
  apply (precedence "2" "3" "4" 2 3 4); reflexivity.
Defined.

(** * Further properties of the lexer *)

Lemma rest_nil_current (l : Lexer) : rest l = [] -> current_char l = None.
Proof.
  unfold rest. destruct (current_char l); [discriminate|reflexivity].
Qed.

Lemma get_None_length (s : string) (n : nat) :
  String.get n s = None <-> String.length s <= n.
Proof.
  rewrite get_chars, length_chars. apply nth_error_None.
Qed.

Lemma Lexer_init_wf (text : string) (l : Lexer) :
  Lexer_init text = Ok l -> Lexer_wf l /\ pos l = 0.
Proof.
  unfold Lexer_init. destruct (String.get 0 text) as [c|] eqn:Hc;
    [|discriminate].
  intros [= <-]. repeat split; simpl; auto. lia.
Qed.

Lemma advance_moves (l : Lexer) (c : ascii) :
  Lexer_wf l -> current_char l = Some c ->
  Lexer_wf (advance l)
  /\ text (advance l) = text l /\ pos (advance l) = S (pos l).
Proof.
  intros [Hcur Hpos] Hc.
  assert (Hlt : pos l < String.length (text l)).
  { destruct (Nat.lt_ge_cases (pos l) (String.length (text l))) as [|Hge];
      [assumption|].
    apply get_None_length in Hge. congruence. }
  unfold advance. rewrite Nat.add_1_r.
  destruct (Z.ltb_spec (Z.of_nat (String.length (text l)) - 1)
              (Z.of_nat (S (pos l)))) as [Hend|Hin]; simpl.
  - split; [|split; reflexivity]. split; simpl; [|lia].
    symmetry. apply get_None_length. lia.
  - split; [|split; reflexivity]. split; simpl; [reflexivity|lia].
Qed.

Lemma lexer_moves_refl (l : Lexer) : Lexer_wf l -> lexer_moves l l.
Proof.
  intros Hwf. repeat split; auto; apply Hwf.
Qed.

Lemma lexer_moves_advance (l l' : Lexer) (c : ascii) :
  Lexer_wf l -> current_char l = Some c ->
  lexer_moves (advance l) l' -> lexer_moves l l'.
Proof.
  intros Hwf Hc (Hwf' & Htext & Hpos).
  destruct (advance_moves l c Hwf Hc) as (_ & Ht & Hp).
  repeat split; try apply Hwf'; [congruence|lia].
Qed.

Lemma skip_whitespace_loop_moves (fuel : nat) : forall l l' : Lexer,
  Lexer_wf l -> skip_whitespace_loop fuel l = Ok l' -> lexer_moves l l'.
Proof.
  induction fuel as [|fuel IH]; intros l l' Hwf; simpl; [discriminate|].
  destruct (current_char l) as [c|] eqn:Hc.
  - destruct (isspace c).
    + intros Hrun. apply (lexer_moves_advance l l' c Hwf Hc).
      apply IH; [|exact Hrun]. now apply (advance_moves l c).
    + intros [= <-]. now apply lexer_moves_refl.
  - intros [= <-]. now apply lexer_moves_refl.
Qed.

Lemma integer_loop_moves (fuel : nat) :
  forall (result result' : string) (l l' : Lexer),
  Lexer_wf l -> integer_loop fuel result l = Ok (result', l') ->
  lexer_moves l l'.
Proof.
  induction fuel as [|fuel IH]; intros result result' l l' Hwf; simpl;
    [discriminate|].
  destruct (current_char l) as [c|] eqn:Hc.
  - destruct (isdigit c).
    + intros Hrun. apply (lexer_moves_advance l l' c Hwf Hc).
      eapply IH; [|exact Hrun]. now apply (advance_moves l c).
    + intros [= _ <-]. now apply lexer_moves_refl.
  - intros [= _ <-]. now apply lexer_moves_refl.
Qed.

Lemma integer_moves (l l' : Lexer) (n : Z) :
  Lexer_wf l -> integer l = Ok (n, l') -> lexer_moves l l'.
Proof.
  intros Hwf. unfold integer.
  destruct (integer_loop (lexer_fuel l) "" l) as [[result l0]| |] eqn:Hloop;
    simpl; try discriminate.
  destruct (int result); simpl; try discriminate.
  intros [= _ <-]. eapply integer_loop_moves; eauto.
Qed.

Lemma lexer_moves_trans (l1 l2 l3 : Lexer) :
  lexer_moves l1 l2 -> lexer_moves l2 l3 -> lexer_moves l1 l3.
Proof.
  intros (_ & Ht1 & Hp1) (Hwf & Ht2 & Hp2).
  repeat split; try apply Hwf; [congruence|lia].
Qed.

Lemma get_next_token_loop_moves (fuel : nat) :
  forall (l l' : Lexer) (t : Token),
  Lexer_wf l -> get_next_token_loop fuel l = Ok (t, l') -> lexer_moves l l'.
Proof.
  induction fuel as [|fuel IH]; intros l l' t Hwf; simpl; [discriminate|].
  destruct (current_char l) as [c|] eqn:Hc.
  2:{ intros [= _ <-]. now apply lexer_moves_refl. }
  destruct (isspace c).
  { destruct (skip_whitespace l) as [l0| |] eqn:Hskip; simpl;
      try discriminate.
    intros Hrun.
    pose proof (skip_whitespace_loop_moves _ l l0 Hwf Hskip) as Hm.
    apply (lexer_moves_trans l l0 l'); [exact Hm|].
    eapply IH; [apply Hm|exact Hrun]. }
  destruct (isdigit c).
  { destruct (integer l) as [[n l0]| |] eqn:Hint; simpl; try discriminate.
    intros [= _ <-]. now apply (integer_moves l l0 n). }
  assert (Hadv : lexer_moves l (advance l)).
  { destruct (advance_moves l c Hwf Hc) as (Hw & Ht & Hp).
    repeat split; try apply Hw; [exact Ht|lia]. }
  repeat match goal with
         | |- context [ascii_eqb c ?k] => destruct (ascii_eqb c k)
         end;
    try (intros [= _ <-]; exact Hadv); discriminate.
Qed.

(** X1.  A call of [get_next_token] that returns leaves the lexer on the
    same text, at a position that is not before the one it started
    from and not beyond the end of the text, with the character at that
    position as its current character ([None] at the end). *)
Theorem get_next_token_moves (l l' : Lexer) (t : Token) :
  Lexer_wf l -> get_next_token l = Ok (t, l') ->
  Lexer_wf l' /\ text l' = text l /\ pos l <= pos l'.
Proof.
  intros Hwf Hget. exact (get_next_token_loop_moves _ l l' t Hwf Hget).
Qed.

Lemma get_next_token_moves_witness :
  Lexer_wf (mkLexer "12 +3" 2 (Some " "%char))
  /\ text (mkLexer "12 +3" 2 (Some " "%char))
     = text (mkLexer "12 +3" 0 (Some "1"%char))
  /\ pos (mkLexer "12 +3" 0 (Some "1"%char))
     <= pos (mkLexer "12 +3" 2 (Some " "%char)).
Proof.
  apply (get_next_token_moves (mkLexer "12 +3" 0 (Some "1"%char))
           (mkLexer "12 +3" 2 (Some " "%char)) (INTEGER_token 12)).
  - split; [reflexivity|simpl; lia].
  - reflexivity.
Defined.

Lemma lex_head_token (s s' : list ascii) (t : Token) :
  lex_head s = Ok (t, s') -> lexer_token t.
Proof.
  unfold lex_head, lexer_token. destruct s as [|c s]; [intros [= <- _]; tauto|].
  destruct (isdigit c).
  { destruct (int _) as [n| |]; simpl; try discriminate.
    intros [= <- _]. left. now exists n. }
  repeat match goal with
         | |- context [ascii_eqb c ?k] => destruct (ascii_eqb c k)
         end;
    try (intros [= <- _]; tauto); discriminate.
Qed.

Lemma lex_token (s s' : list ascii) (t : Token) :
  lex s = Ok (t, s') -> lexer_token t.
Proof.
  apply lex_head_token.
Qed.

(** What [get_next_token] returns, read off [lex]. *)
Lemma get_next_token_Ok (l l' : Lexer) (t : Token) :
  get_next_token l = Ok (t, l') -> lex (rest l) = Ok (t, rest l').
Proof.
  intros Hget. pose proof (get_next_token_lex l) as Hlex.
  rewrite Hget in Hlex.
  destruct (lex (rest l)) as [[t' s']| |]; simpl in Hlex; try contradiction.
  destruct Hlex as [Ht Hs]; simpl in *. unfold has_rest in Hs. congruence.
Qed.

Lemma lex_get_next_token (l : Lexer) (t : Token) (s' : list ascii) :
  lex (rest l) = Ok (t, s') ->
  exists l', get_next_token l = Ok (t, l') /\ rest l' = s'.
Proof.
  intros Hlex. pose proof (get_next_token_lex l) as Hsim.
  rewrite Hlex in Hsim.
  destruct (get_next_token l) as [[t' l']| |]; simpl in Hsim;
    try contradiction.
  destruct Hsim as [Ht Hs]; simpl in *. exists l'. split; congruence.
Qed.

(** X2.  Once [get_next_token] has returned [EOF] the lexer is at the
    end of its text, and every further call returns [Token(EOF, None)]
    again and leaves the lexer as it is. *)
Theorem get_next_token_EOF_again (l l' : Lexer) (t : Token) :
  get_next_token l = Ok (t, l') -> type t = EOF ->
  t = EOF_token
  /\ current_char l' = None
  /\ get_next_token l' = Ok (EOF_token, l').
Proof.
  intros Hget Heof.
  pose proof (get_next_token_Ok l l' t Hget) as Hlex.
  pose proof (lex_token _ _ _ Hlex) as Htok.
  pose proof (lex_shrinks (rest l)) as Hshr. rewrite Hlex, Heof in Hshr.
  apply rest_nil_current in Hshr.
  split; [|split; [exact Hshr|]].
  - destruct Htok as [[n ->]|[->|[->|[->|[->|[->|[->| ->]]]]]]];
      try discriminate; reflexivity.
  - unfold get_next_token, lexer_fuel. cbn [Nat.add get_next_token_loop].
    now rewrite Hshr.
Qed.

Lemma get_next_token_EOF_again_witness :
  EOF_token = EOF_token
  /\ current_char (mkLexer "7  " 3 None) = None
  /\ get_next_token (mkLexer "7  " 3 None)
     = Ok (EOF_token, mkLexer "7  " 3 None).
Proof.
  apply (get_next_token_EOF_again (mkLexer "7  " 1 (Some " "%char))
           (mkLexer "7  " 3 None) EOF_token); reflexivity.
Defined.

Lemma rest_skipn (l : Lexer) :
  Lexer_wf l -> rest l = skipn (pos l) (chars (text l)).
Proof.
  intros [Hcur Hpos]. unfold rest. rewrite Hcur, get_chars.
  destruct (nth_error (chars (text l)) (pos l)) as [c|] eqn:Hc.
  - symmetry. now apply skipn_nth.
  - apply nth_error_None in Hc. symmetry. now apply skipn_all2.
Qed.

Lemma rest_length_pos (l : Lexer) :
  Lexer_wf l -> List.length (rest l) + pos l = String.length (text l).
Proof.
  intros Hwf. rewrite (rest_skipn l Hwf), length_skipn, length_chars.
  destruct Hwf as [_ Hpos]. rewrite length_chars in Hpos. lia.
Qed.

Lemma skip_ws_literal (ws : list ascii) (s : string) (n : Z) (r : list ascii) :
  forallb isspace ws = true -> literal_value s = Some n ->
  starts_digit r = false ->
  lex (ws ++ chars s ++ r) = Ok (INTEGER_token n, r).
Proof.
  intros Hws Hn Hr. unfold lex. rewrite (skip_ws_app _ _ Hws).
  now apply (lex_literal s n r).
Qed.

(** X3.  On blanks followed by a run of decimal digits and then
    something that is not a digit, [get_next_token] returns one
    [INTEGER] token whose value is the number the digits denote (leading
    zeros allowed), and moves the position by exactly the number of
    blanks and digits read. *)
Theorem get_next_token_integer
  (l : Lexer) (ws : list ascii) (s : string) (n : Z) (r : list ascii) :
  Lexer_wf l ->
  rest l = (ws ++ chars s ++ r)%list ->
  forallb isspace ws = true ->
  literal_value s = Some n ->
  starts_digit r = false ->
  exists l',
    get_next_token l = Ok (INTEGER_token n, l')
    /\ rest l' = r
    /\ pos l' = pos l + List.length ws + String.length s.
Proof.
  intros Hwf Hrest Hws Hn Hr.
  pose proof (skip_ws_literal ws s n r Hws Hn Hr) as Hlex.
  rewrite <- Hrest in Hlex.
  destruct (lex_get_next_token l _ _ Hlex) as (l' & Hget & Hrest').
  exists l'. split; [exact Hget|]. split; [exact Hrest'|].
  destruct (get_next_token_loop_moves _ l l' _ Hwf Hget) as (Hwf' & Ht & Hp).
  pose proof (rest_length_pos l Hwf) as Hl.
  pose proof (rest_length_pos l' Hwf') as Hl'.
  rewrite Hrest in Hl. rewrite Hrest', Ht in Hl'.
  rewrite !length_app, <- length_chars in Hl. lia.
Qed.

Lemma get_next_token_integer_witness :
  exists l',
    get_next_token (mkLexer "1 + 007)" 3 (Some " "%char))
    = Ok (INTEGER_token 7, l')
    /\ rest l' = [")"%char]
    /\ pos l' = 3 + List.length [" "%char] + String.length "007".
Proof.
  apply (get_next_token_integer (mkLexer "1 + 007)" 3 (Some " "%char))
           [" "%char] "007" 7 [")"%char]);
    try reflexivity.
  split; [reflexivity|simpl; lia].
Defined.

(** * Further properties of the whole run *)

Section MoreSteps.

Variable e : Parser (list ascii) -> res (AST * Parser (list ascii)).

Lemma factor_other_step (p : Parser (list ascii)) :
  type (current_token p) <> INTEGER -> type (current_token p) <> LPAREN ->
  factor_with e p = Ok (NoneNode, p).
Proof.
  intros Hi Hl. unfold factor_with.
  destruct (type (current_token p)); congruence.
Qed.

Lemma eat_mismatch (token_type : TokenType) (p : Parser (list ascii)) :
  type (current_token p) <> token_type ->
  eat token_type p = Raise (Exception "Invalid syntax").
Proof.
  intros Hne. unfold eat.
  destruct (type (current_token p)), token_type; try congruence; reflexivity.
Qed.

End MoreSteps.

Lemma lex_blanks (ws s : list ascii) :
  forallb isspace ws = true -> lex (ws ++ s) = lex s.
Proof.
  intros Hws. unfold lex. now rewrite skip_ws_app.
Qed.

Ltac lex_solve_more :=
  repeat rewrite lex_blank by reflexivity;
  repeat rewrite lex_blanks by assumption;
  first
    [ apply lex_plus | apply lex_minus | apply lex_mul | apply lex_div
    | apply lex_lparen | apply lex_rparen | apply lex_nil
    | apply lex_literal; [eassumption|reflexivity || assumption]
    | apply lex_literal_end; eassumption ].

Ltac parser_run :=
  repeat first
    [ rewrite expr_S
    | progress unfold expr_with, term_with
    | erewrite factor_INTEGER by (reflexivity || lex_solve_more)
    | erewrite factor_LPAREN by (reflexivity || lex_solve_more)
    | erewrite eat_step by (reflexivity || lex_solve_more)
    | erewrite term_loop_step
        by ((left; reflexivity) || (right; reflexivity) || lex_solve_more)
    | erewrite expr_loop_step
        by ((left; reflexivity) || (right; reflexivity) || lex_solve_more)
    | rewrite term_loop_exit by discriminate
    | rewrite expr_loop_exit by discriminate
    | rewrite factor_other_step by discriminate
    | rewrite eat_mismatch by discriminate
    | progress cbn [bind] ].

Ltac run_chars :=
  unfold run, Parser_init;
  change (@next_token (list ascii) _) with lex;
  match goal with
  | |- context [lex ?s] =>
      let H := fresh in
      eassert (H : lex s = _) by lex_solve_more; rewrite H; clear H
  end;
  cbn [bind]; unfold interpret, parse;
  parser_run.

Lemma string_nonempty_app (a b : string) : a <> "" -> a ++ b <> "".
Proof.
  destruct a; [congruence|discriminate].
Qed.

(** X4.  A text of blanks only, one at least, parses to [None], and the
    run ends in [generic_visit]. *)
Theorem evaluate_blank (ws : string) :
  ws <> "" -> forallb isspace (chars ws) = true ->
  evaluate ws = Raise (Exception "No visit_NoneType method").
Proof.
  intros Hne Hws. apply evaluate_fuel3; [exact Hne| |discriminate].
  rewrite <- (List.app_nil_r (chars ws)).
  run_chars. reflexivity.
Qed.

Lemma evaluate_blank_witness :
  evaluate "   " = Raise (Exception "No visit_NoneType method").
Proof.
  apply (evaluate_blank "   "); [discriminate|reflexivity].
Defined.

(** X5.  An opening parenthesis that is not closed where the
    expression inside it ends is reported by [eat]: the texts ["(a"],
    ["(a + b"] and ["(a b)"] end with [Exception("Invalid syntax")]. *)
Theorem evaluate_unclosed (sa sb : string) (a b : Z) :
  literal_value sa = Some a -> literal_value sb = Some b ->
  evaluate ("(" ++ sa) = Raise (Exception "Invalid syntax")
  /\ evaluate ("(" ++ sa ++ " + " ++ sb) = Raise (Exception "Invalid syntax")
  /\ evaluate ("(" ++ sa ++ " * " ++ sb) = Raise (Exception "Invalid syntax")
  /\ evaluate ("(" ++ sa ++ " " ++ sb ++ ")")
     = Raise (Exception "Invalid syntax").
Proof.
  intros Ha Hb.
  repeat split.
  all: apply evaluate_fuel3; [discriminate| |discriminate].
  all: cbn [append]; repeat (rewrite chars_app || rewrite chars_cons).
  all: run_chars; reflexivity.
Qed.

Lemma evaluate_unclosed_witness :
  evaluate "(1" = Raise (Exception "Invalid syntax")
  /\ evaluate "(1 + 2" = Raise (Exception "Invalid syntax")
  /\ evaluate "(1 * 2" = Raise (Exception "Invalid syntax")
  /\ evaluate "(1 2)" = Raise (Exception "Invalid syntax").
Proof.
  apply (evaluate_unclosed "1" "2" 1 2); reflexivity.
Defined.

Lemma int_acc_not_decimal (s : string) : forall acc : Z,
  forallb is_decimal (chars s) = false -> int_acc s acc = Raise ValueError.
Proof.
  induction s as [|c s IH]; intros acc; [discriminate|].
  change (chars (String c s)) with (c :: chars s). simpl.
  destruct (is_decimal c); simpl; [apply IH|reflexivity].
Qed.

Lemma span_digits_run (ds r : list ascii) :
  forallb isdigit ds = true -> starts_digit r = false ->
  span_digits (ds ++ r) = (ds, r).
Proof.
  intros Hds Hr. induction ds as [|c ds IH]; simpl.
  - now apply span_digits_other.
  - simpl in Hds. apply andb_true_iff in Hds as [Hc Hds].
    now rewrite Hc, (IH Hds).
Qed.

Lemma isdigit_not_isspace (c : ascii) : isdigit c = true -> isspace c = false.
Proof.
  intros Hc. destruct (isspace c) eqn:Hsp; [|reflexivity].
  apply isspace_not_isdigit in Hsp. congruence.
Qed.

(** A run of digits with one that is not decimal, up to something that
    is not a digit, is no token: [int] raises [ValueError]. *)
Lemma lex_not_decimal (ds : string) (r : list ascii) :
  forallb isdigit (chars ds) = true ->
  forallb is_decimal (chars ds) = false ->
  starts_digit r = false ->
  lex (chars ds ++ r) = Raise ValueError.
Proof.
  intros Hds Hnd Hr.
  pose proof (span_digits_run _ r Hds Hr) as Hspan.
  destruct ds as [|c s]; [discriminate|].
  change (chars (String c s)) with (c :: chars s) in *.
  pose proof Hds as Hds'. simpl in Hds'.
  apply andb_true_iff in Hds' as [Hc _].
  unfold lex. cbn [List.app skip_ws] in *.
  rewrite (isdigit_not_isspace c Hc). unfold lex_head. rewrite Hc, Hspan.
  cbn [fst snd].
  change (c :: chars s) with (chars (String c s)) in *.
  unfold chars in *. rewrite string_of_list_ascii_of_string.
  unfold int. rewrite (int_acc_not_decimal (String c s) 0 Hnd). reflexivity.
Qed.

(** X6.  The lexer takes the superscript digits for digits, as
    [str.isdigit] does, but [int] does not read them: a text that starts
    with a run of digits one of which is not decimal ends with
    [ValueError], an exception the program never raises itself. *)
Theorem evaluate_not_decimal (ds r : string) :
  forallb isdigit (chars ds) = true ->
  forallb is_decimal (chars ds) = false ->
  starts_digit (chars r) = false ->
  evaluate (ds ++ r) = Raise ValueError.
Proof.
  intros Hds Hnd Hr.
  assert (Hne : ds <> "") by (destruct ds; [discriminate|discriminate]).
  rewrite evaluate_run by (now apply string_nonempty_app).
  rewrite chars_app. unfold run, Parser_init.
  change (@next_token (list ascii) _) with lex.
  now rewrite (lex_not_decimal ds (chars r) Hds Hnd Hr).
Qed.

Lemma evaluate_not_decimal_witness :
  evaluate (String "1" (String "178" "") ++ " + 1") = Raise ValueError.
Proof.
  apply (evaluate_not_decimal (String "1" (String "178" "")) " + 1");
    reflexivity.
Defined.

Ltac visit_ints :=
  cbn [visit type value bind INTEGER_token PLUS_token MINUS_token MUL_token
       DIV_token py_add py_sub py_mul py_floordiv];
  repeat match goal with
         | Hnz : ?z <> 0%Z |- context [(?z =? 0)%Z] =>
             destruct (Z.eqb_spec z 0) as [Hz|_]; [contradiction|];
             cbn [bind py_add py_sub py_mul py_floordiv]
         end.

(** X7.  Operators of one level group from the left: ["a - b - c"] is
    [(a - b) - c] and, for divisors that are not zero, ["a / b / c"] is
    [(a / b) / c]; parentheses on the right give [a - (b - c)]. *)
Theorem left_associative (sa sb sc : string) (a b c : Z) :
  literal_value sa = Some a ->
  literal_value sb = Some b ->
  literal_value sc = Some c ->
  evaluate (sa ++ " - " ++ sb ++ " - " ++ sc) = Ok (VInt (a - b - c))
  /\ evaluate (sa ++ " - (" ++ sb ++ " - " ++ sc ++ ")")
     = Ok (VInt (a - (b - c)))
  /\ evaluate (sa ++ " - " ++ sb ++ " + " ++ sc) = Ok (VInt (a - b + c))
  /\ (b <> 0%Z -> c <> 0%Z ->
      evaluate (sa ++ " / " ++ sb ++ " / " ++ sc) = Ok (VInt (a / b / c)))
  /\ (b <> 0%Z ->
      evaluate (sa ++ " / " ++ sb ++ " * " ++ sc) = Ok (VInt (a / b * c))).
Proof.
  intros Ha Hb Hc.
  assert (Hne : sa <> "") by (now apply (literal_nonempty sa a)).
  repeat split; try intros Hbz; try intros Hcz.
  all: apply evaluate_fuel3; [now apply string_nonempty_app| |discriminate].
  all: cbn [append]; repeat (rewrite chars_app || rewrite chars_cons).
  all: run_chars; visit_ints; reflexivity.
Qed.

Lemma left_associative_witness :
  evaluate "10 - 2 - 3" = Ok (VInt 5)
  /\ evaluate "10 - (2 - 3)" = Ok (VInt 11)
  /\ evaluate "10 - 2 + 3" = Ok (VInt 11)
  /\ (2%Z <> 0%Z -> 3%Z <> 0%Z -> evaluate "10 / 2 / 3" = Ok (VInt 1))
  /\ (2%Z <> 0%Z -> evaluate "10 / 2 * 3" = Ok (VInt 15)).
Proof.
  apply (left_associative "10" "2" "3" 10 2 3); reflexivity.
Defined.

(** ** Chains of additions and subtractions *)

Lemma chain_text_length (ops : list (bool * string)) :
  List.length ops <= String.length (chain_text ops).
Proof.
  induction ops as [|[plus s] ops IH]; simpl; [lia|].
  rewrite !length_chars, !chars_app, !length_app, <- !length_chars in *.
  destruct plus; simpl; lia.
Qed.

Lemma chain_text_starts (ops : list (bool * string)) :
  starts_digit (chars (chain_text ops)) = false.
Proof.
  destruct ops as [|[[] s] ops]; reflexivity.
Qed.

(** The first token of a tail and what is left behind it. *)
Lemma lex_chain_text (ops : list (bool * string)) (acc v : Z) :
  chain_value acc ops = Some v ->
  exists t s',
    lex (chars (chain_text ops)) = Ok (t, s')
    /\ type t <> MUL /\ type t <> DIV.
Proof.
  destruct ops as [|[plus s] ops]; intros _.
  - exists EOF_token, []. split; [reflexivity|split; discriminate].
  - exists (additive_token plus),
      (" "%char :: chars s ++ chars (chain_text ops)).
    simpl chain_text. rewrite !chars_app.
    destruct plus; (split; [reflexivity|split; discriminate]).
Qed.

Section Chain.

Variable e : Parser (list ascii) -> res (AST * Parser (list ascii)).

Lemma expr_loop_chain (ops : list (bool * string)) :
  forall (fuel : nat) (node : AST) (acc v : Z) (t : Token) (s' : list ascii),
  List.length ops < fuel ->
  chain_value acc ops = Some v ->
  lex (chars (chain_text ops)) = Ok (t, s') ->
  expr_loop e fuel node (mkParser s' t)
  = Ok (chain_tree node ops, mkParser [] EOF_token).
Proof.
  induction ops as [|[plus s] ops IH]; intros fuel node acc v t s' Hfuel Hv Hlex.
  - destruct fuel as [|fuel]; [simpl in Hfuel; lia|].
    injection Hlex as <- <-. now rewrite expr_loop_exit by discriminate.
  - destruct fuel as [|fuel]; [simpl in Hfuel; lia|].
    simpl in Hfuel, Hv. simpl chain_tree.
    destruct (literal_value s) as [n|] eqn:Hn; [|discriminate].
    destruct (lex_chain_text ops _ v Hv) as (t1 & s1 & Hlex1 & Hm & Hd).
    simpl chain_text in Hlex. rewrite !chars_app in Hlex.
    assert (Ht : t = additive_token plus
                 /\ s' = " "%char :: chars s ++ chars (chain_text ops)).
    { destruct plus; injection Hlex as <- <-; split; reflexivity. }
    destruct Ht as [-> ->].
    assert (Hlit : lex (" "%char :: chars s ++ chars (chain_text ops))
                   = Ok (INTEGER_token n, chars (chain_text ops))).
    { rewrite lex_blank by reflexivity.
      apply lex_literal; [exact Hn|apply chain_text_starts]. }
    assert (Hop : type (additive_token plus) = PLUS
                  \/ type (additive_token plus) = MINUS)
      by (destruct plus; [left|right]; reflexivity).
    rewrite (expr_loop_step e fuel node _ _ _ _ Hop Hlit).
    unfold term_with.
    rewrite (factor_INTEGER e _ _ (INTEGER_token n) t1 eq_refl Hlex1).
    cbn [bind].
    rewrite term_loop_exit by assumption. cbn [bind].
    eapply IH; [lia|exact Hv|exact Hlex1].
Qed.

End Chain.

Lemma visit_chain_tree (ops : list (bool * string)) :
  forall (node : AST) (acc v : Z),
  visit node = Ok (VInt acc) ->
  chain_value acc ops = Some v ->
  visit (chain_tree node ops) = Ok (VInt v).
Proof.
  induction ops as [|[plus s] ops IH]; intros node acc v Hnode Hv; simpl in *.
  - congruence.
  - destruct (literal_value s) as [n|]; [|discriminate].
    eapply IH; [|exact Hv].
    destruct plus; simpl; rewrite Hnode; reflexivity.
Qed.

(** X8.  A literal followed by any number of additions and
    subtractions of literals evaluates to the result of applying them
    one after the other from the left. *)
Theorem evaluate_chain (s0 : string) (ops : list (bool * string)) (a v : Z) :
  literal_value s0 = Some a ->
  chain_value a ops = Some v ->
  evaluate (s0 ++ chain_text ops) = Ok (VInt v).
Proof.
  intros Ha Hv.
  assert (Hne : s0 <> "") by (now apply (literal_nonempty s0 a)).
  rewrite evaluate_run by (now apply string_nonempty_app).
  destruct (lex_chain_text ops a v Hv) as (t1 & s1 & Hlex1 & Hm & Hd).
  unfold text_fuel, run, Parser_init. cbn [Nat.add].
  change (@next_token (list ascii) _) with lex.
  rewrite chars_app.
  rewrite (lex_literal s0 a _ Ha (chain_text_starts ops)). cbn [bind].
  unfold interpret, parse. rewrite expr_S. unfold expr_with, term_with.
  rewrite (factor_INTEGER _ _ _ (INTEGER_token a) t1 eq_refl Hlex1).
  cbn [bind]. rewrite term_loop_exit by assumption. cbn [bind].
  rewrite (expr_loop_chain _ ops _ (Num_of a) a v t1 s1); [| |exact Hv|exact Hlex1].
  - cbn [bind]. now apply (visit_chain_tree ops (Num_of a) a v).
  - pose proof (chain_text_length ops).
    rewrite length_chars, chars_app, length_app, <- !length_chars. lia.
Qed.

Lemma evaluate_chain_witness :
  evaluate ("10" ++ chain_text [(false, "2"); (true, "30"); (false, "4")])
  = Ok (VInt 34).
Proof.
  apply (evaluate_chain "10" [(false, "2"); (true, "30"); (false, "4")] 10 34);
    reflexivity.
Defined.

(** ** Parentheses of any depth *)

Lemma nested_length (n : nat) (s : string) :
  n <= String.length (nested n s).
Proof.
  induction n as [|n IH]; simpl; [lia|].
  rewrite length_chars, chars_app, length_app, <- length_chars. lia.
Qed.

Lemma nested_nonempty (n : nat) (s : string) : s <> "" -> nested n s <> "".
Proof.
  destruct n; [auto|discriminate].
Qed.

Lemma factor_nested (s : string) (a : Z) (n : nat) :
  literal_value s = Some a ->
  forall (fuel : nat) (r s' : list ascii) (t : Token),
  n <= fuel ->
  starts_digit r = false ->
  lex r = Ok (t, s') ->
  exists t0 s0,
    lex (chars (nested n s) ++ r) = Ok (t0, s0)
    /\ factor_with (expr fuel) (mkParser s0 t0)
       = Ok (Num_of a, mkParser s' t).
Proof.
  intros Ha. induction n as [|n IH]; intros fuel r s' t Hfuel Hr Hlex.
  - exists (INTEGER_token a), r. split; [now apply lex_literal|].
    now apply factor_INTEGER.
  - destruct fuel as [|fuel]; [lia|].
    destruct (IH fuel (")"%char :: r) r RPAREN_token
                ltac:(lia) eq_refl (lex_rparen r))
      as (t1 & s1 & Hlex1 & Hfac).
    exists LPAREN_token, (chars (nested n s) ++ ")"%char :: r)%list.
    split.
    + simpl nested. rewrite chars_cons, chars_app.
      change (chars ")") with [")"%char]. cbn [List.app].
      rewrite <- List.app_assoc. apply lex_lparen.
    + rewrite (factor_LPAREN _ _ _ LPAREN_token t1 eq_refl Hlex1).
      rewrite expr_S. unfold expr_with, term_with. rewrite Hfac.
      cbn [bind].
      rewrite term_loop_exit by discriminate. cbn [bind].
      rewrite expr_loop_exit by discriminate. cbn [bind].
      rewrite (eat_step RPAREN r s' RPAREN_token t eq_refl Hlex).
      reflexivity.
Qed.

(** X9.  A literal inside any number of pairs of parentheses evaluates
    to the literal: [factor] and [expr] call each other once for each
    pair. *)
Theorem evaluate_nested (n : nat) (s : string) (a : Z) :
  literal_value s = Some a ->
  evaluate (nested n s) = Ok (VInt a).
Proof.
  intros Ha.
  assert (Hne : s <> "") by (now apply (literal_nonempty s a)).
  rewrite evaluate_run by (now apply nested_nonempty).
  unfold text_fuel, run, Parser_init. cbn [Nat.add].
  change (@next_token (list ascii) _) with lex.
  destruct (factor_nested s a n Ha (S (String.length (nested n s)))
              [] [] EOF_token) as (t0 & s0 & Hlex0 & Hfac);
    [pose proof (nested_length n s); lia|reflexivity|reflexivity|].
  rewrite List.app_nil_r in Hlex0. rewrite Hlex0. cbn [bind].
  unfold interpret, parse. rewrite expr_S. unfold expr_with, term_with.
  rewrite Hfac. cbn [bind].
  rewrite term_loop_exit by discriminate. cbn [bind].
  rewrite expr_loop_exit by discriminate. reflexivity.
Qed.

Lemma evaluate_nested_witness :
  evaluate (nested 4 "42") = Ok (VInt 42).
Proof.
  apply (evaluate_nested 4 "42" 42). reflexivity.
Defined.

(** ** Invariants of the parser *)

Section ParserInvariant.

Variable IL : list ascii -> Prop.
Variable IT : Token -> Prop.
Variable E : exn -> Prop.

Hypothesis lex_inv : forall s,
  IL s ->
  match lex s with
  | Ok (t, s') => IT t /\ IL s'
  | Raise e => E e
  | NoFuel => True
  end.

(** Either no token is an opening parenthesis, or "Invalid syntax" is
    among the exceptions allowed. *)
Hypothesis syntax_inv :
  (forall t, IT t -> type t <> LPAREN) \/ E (Exception "Invalid syntax").

Lemma eat_inv (token_type : TokenType) (p : Parser (list ascii)) :
  IL (lexer p) ->
  type (current_token p) = token_type \/ E (Exception "Invalid syntax") ->
  match eat token_type p with
  | Ok p' => IT (current_token p') /\ IL (lexer p')
  | Raise e => E e
  | NoFuel => True
  end.
Proof.
  intros Hl Hguard. unfold eat.
  destruct (TokenType_eqb (type (current_token p)) token_type) eqn:Heq.
  - change (next_token (lexer p)) with (lex (lexer p)).
    pose proof (lex_inv (lexer p) Hl) as Hlex.
    destruct (lex (lexer p)) as [[t s']| |]; simpl; auto.
  - destruct Hguard as [<-|Hsyn]; [|exact Hsyn].
    destruct (type (current_token p)); discriminate.
Qed.

Section InvRules.

Variable e : Parser (list ascii) -> res (AST * Parser (list ascii)).
Hypothesis rec_inv : forall p,
  IT (current_token p) -> IL (lexer p) -> outcome_inv IL IT E (e p).

Lemma outcome_inv_bind_eat (token_type : TokenType) (p : Parser (list ascii))
  (k : Parser (list ascii) -> res (AST * Parser (list ascii))) :
  IL (lexer p) ->
  type (current_token p) = token_type \/ E (Exception "Invalid syntax") ->
  (forall q, IT (current_token q) -> IL (lexer q) ->
             outcome_inv IL IT E (k q)) ->
  outcome_inv IL IT E (bind (eat token_type p) k).
Proof.
  intros Hl Hguard Hk. pose proof (eat_inv token_type p Hl Hguard) as He.
  destruct (eat token_type p) as [q| |]; simpl; auto.
  destruct He. now apply Hk.
Qed.

Lemma outcome_inv_bind (m : res (AST * Parser (list ascii)))
  (k : AST * Parser (list ascii) -> res (AST * Parser (list ascii))) :
  outcome_inv IL IT E m ->
  (forall node q, token_tree IT node -> IT (current_token q) ->
                  IL (lexer q) -> outcome_inv IL IT E (k (node, q))) ->
  outcome_inv IL IT E (bind m k).
Proof.
  intros Hm Hk. destruct m as [[node q]| |]; simpl in *; auto.
  destruct Hm as (Hn & Ht & Hl). now apply Hk.
Qed.

Lemma factor_with_inv (p : Parser (list ascii)) :
  IT (current_token p) -> IL (lexer p) ->
  outcome_inv IL IT E (factor_with e p).
Proof.
  intros Ht Hl. unfold factor_with.
  destruct (type (current_token p)) eqn:Hty;
    try (simpl; repeat split; auto using tree_None).
  - apply outcome_inv_bind_eat; auto.
    intros q Hq Hlq. simpl. repeat split; auto. now apply tree_Num.
  - destruct syntax_inv as [Hno|Hsyn]; [now destruct (Hno _ Ht)|].
    apply outcome_inv_bind_eat; auto.
    intros q Hq Hlq.
    apply outcome_inv_bind; [now apply rec_inv|].
    intros node r Hn Hr Hlr.
    apply outcome_inv_bind_eat; auto.
    intros q' Hq' Hlq'. simpl. auto.
Qed.

Lemma term_loop_inv (fuel : nat) :
  forall (node : AST) (p : Parser (list ascii)),
  token_tree IT node -> IT (current_token p) -> IL (lexer p) ->
  outcome_inv IL IT E (term_loop e fuel node p).
Proof.
  induction fuel as [|fuel IH]; intros node p Hn Ht Hl; [exact I|].
  simpl. destruct (type (current_token p)) eqn:Hty;
    try (simpl; repeat split; assumption).
  all: apply outcome_inv_bind_eat; auto; intros q Hq Hlq;
    apply outcome_inv_bind; [now apply factor_with_inv|];
    intros rhs r Hrhs Hr Hlr; apply IH; auto;
    apply tree_BinOp; auto.
Qed.

Lemma term_with_inv (fuel : nat) (p : Parser (list ascii)) :
  IT (current_token p) -> IL (lexer p) ->
  outcome_inv IL IT E (term_with e fuel p).
Proof.
  intros Ht Hl. unfold term_with.
  apply outcome_inv_bind; [now apply factor_with_inv|].
  intros node q Hn Hq Hlq. now apply term_loop_inv.
Qed.

Lemma expr_loop_inv (fuel : nat) :
  forall (node : AST) (p : Parser (list ascii)),
  token_tree IT node -> IT (current_token p) -> IL (lexer p) ->
  outcome_inv IL IT E (expr_loop e fuel node p).
Proof.
  induction fuel as [|fuel IH]; intros node p Hn Ht Hl; [exact I|].
  simpl. destruct (type (current_token p)) eqn:Hty;
    try (simpl; repeat split; assumption).
  all: apply outcome_inv_bind_eat; auto; intros q Hq Hlq;
    apply outcome_inv_bind; [now apply term_with_inv|];
    intros rhs r Hrhs Hr Hlr; apply IH; auto;
    apply tree_BinOp; auto.
Qed.

Lemma expr_with_inv (fuel : nat) (p : Parser (list ascii)) :
  IT (current_token p) -> IL (lexer p) ->
  outcome_inv IL IT E (expr_with e fuel p).
Proof.
  intros Ht Hl. unfold expr_with.
  apply outcome_inv_bind; [now apply term_with_inv|].
  intros node q Hn Hq Hlq. now apply expr_loop_inv.
Qed.

End InvRules.

Lemma expr_inv (fuel : nat) : forall p : Parser (list ascii),
  IT (current_token p) -> IL (lexer p) ->
  outcome_inv IL IT E (expr fuel p).
Proof.
  induction fuel as [|fuel IH]; intros p Ht Hl; [exact I|].
  simpl. now apply expr_with_inv.
Qed.

End ParserInvariant.

(** ** The outcomes of a run *)

Lemma int_acc_raises (s : string) : forall (acc : Z) (e : exn),
  int_acc s acc = Raise e -> e = ValueError.
Proof.
  induction s as [|c s IH]; intros acc e; simpl; [discriminate|].
  destruct (is_decimal c); [apply IH|congruence].
Qed.

Lemma int_raises (s : string) (e : exn) : int s = Raise e -> e = ValueError.
Proof.
  destruct s as [|c s]; [simpl; congruence|].
  unfold int. apply int_acc_raises.
Qed.

Lemma lex_raises (s : list ascii) (e : exn) :
  lex s = Raise e -> e = ValueError \/ e = Exception "Invalid character".
Proof.
  unfold lex, lex_head. destruct (skip_ws s) as [|c s']; [discriminate|].
  destruct (isdigit c).
  { destruct (int _) as [n| |] eqn:Hint; simpl; try discriminate.
    intros [= <-]. left. now apply int_raises in Hint. }
  repeat match goal with
         | |- context [ascii_eqb c ?k] => destruct (ascii_eqb c k)
         end;
    try discriminate.
  unfold Lexer_error. intros [= <-]. now right.
Qed.

Lemma lex_inv_tokens (s : list ascii) :
  True ->
  match lex s with
  | Ok (t, s') => lexer_token t /\ True
  | Raise e => parse_exception e
  | NoFuel => True
  end.
Proof.
  intros _. destruct (lex s) as [[t s']| |] eqn:Hlex; auto.
  - split; [|exact I]. now apply (lex_token s s').
  - destruct (lex_raises s e Hlex) as [->| ->]; unfold parse_exception; auto.
Qed.

Lemma visit_token_tree (node : AST) :
  token_tree lexer_token node ->
  match visit node with
  | Ok v => exists z, v = VInt z
  | Raise e => visit_exception e
  | NoFuel => False
  end.
Proof.
  unfold visit_exception.
  induction 1 as [|t Ht Hty|lhs op rhs Hl IHl Hr IHr Hop]; simpl.
  - now right.
  - destruct Ht as [[n ->]|[->|[->|[->|[->|[->|[->| ->]]]]]]];
      try discriminate. now exists n.
  - destruct Hop as [->|[->|[->| ->]]];
      destruct (visit lhs) as [a| |]; simpl; auto; try contradiction;
      destruct IHl as [x ->];
      destruct (visit rhs) as [b| |]; simpl; auto; try contradiction;
      destruct IHr as [y ->]; simpl; eauto.
    destruct (y =? 0)%Z; eauto.
Qed.

(** The pipeline over the characters: an integer, or one of five
    exceptions. *)
Lemma run_outcomes (fuel : nat) (s : list ascii) :
  match run fuel s with
  | Ok v => exists z, v = VInt z
  | Raise e => parse_exception e \/ visit_exception e
  | NoFuel => True
  end.
Proof.
  unfold run, Parser_init.
  change (@next_token (list ascii) _) with lex.
  pose proof (lex_inv_tokens s I) as Hlex.
  destruct (lex s) as [[t s']| |]; simpl; auto.
  destruct Hlex as [Ht _]. unfold interpret, parse.
  pose proof (expr_inv (fun _ => True) lexer_token parse_exception
                lex_inv_tokens (or_intror (or_intror (or_intror eq_refl)))
                fuel (mkParser s' t) Ht I) as Hexpr.
  destruct (expr fuel (mkParser s' t)) as [[node q]| |]; simpl in *; auto.
  destruct Hexpr as (Hnode & _).
  pose proof (visit_token_tree node Hnode) as Hv.
  destruct (visit node); auto.
Qed.

Lemma evaluate_classified (text : string) :
  match evaluate text with
  | Ok v => text <> "" /\ exists z, v = VInt z
  | Raise e =>
      (e = IndexError /\ text = "")
      \/ (text <> "" /\ (parse_exception e \/ visit_exception e))
  | NoFuel => False
  end.
Proof.
  destruct text as [|c s]; [left; split; reflexivity|].
  destruct (evaluate_with_stable (text_fuel (String c s)) (String c s)
              (Nat.le_refl _)) as [_ Hends].
  rewrite evaluate_run in * by discriminate.
  pose proof (run_outcomes (text_fuel (String c s)) (chars (String c s)))
    as Hrun.
  destruct (run _ _) as [v|e|]; [| |congruence].
  - split; [discriminate|exact Hrun].
  - right. split; [discriminate|exact Hrun].
Qed.

(** X10.  Whatever the text, [evaluate] ends in one of seven ways: with
    an [int]; with [IndexError], exactly when the text is empty; with
    [ValueError], "Invalid character" or "Invalid syntax" from the lexer
    and the parser; or with [ZeroDivisionError] or "No visit_NoneType
    method" from the interpreter.  It never returns a string or [None],
    and never raises [TypeError].  This is the program with the recursion
    limit of the host aside, which the model does not have: on a text
    nested deeper than that limit allows, the host ends the run with
    [RecursionError] instead. *)
Theorem evaluate_outcomes (text : string) :
  match evaluate text with
  | Ok v => text <> "" /\ exists z, v = VInt z
  | Raise e =>
      (e = IndexError /\ text = "")
      \/ (text <> "" /\ (parse_exception e \/ visit_exception e))
  | NoFuel => False
  end.
Proof.
  apply evaluate_classified.
Qed.

(** ** Texts without parentheses *)

Lemma no_lparen_skip_ws (s : list ascii) :
  no_lparen s = true -> no_lparen (skip_ws s) = true.
Proof.
  induction s as [|c s IH]; simpl; [auto|].
  intros Hs. destruct (isspace c); [|exact Hs].
  apply andb_true_iff in Hs as [_ Hs]. auto.
Qed.

Lemma no_lparen_span_digits (s : list ascii) :
  no_lparen s = true -> no_lparen (snd (span_digits s)) = true.
Proof.
  induction s as [|c s IH]; simpl; [auto|].
  intros Hs. destruct (isdigit c); [|exact Hs].
  apply andb_true_iff in Hs as [_ Hs].
  destruct (span_digits s); simpl in *. auto.
Qed.

Lemma lex_inv_no_lparen (s : list ascii) :
  no_lparen s = true ->
  match lex s with
  | Ok (t, s') => type t <> LPAREN /\ no_lparen s' = true
  | Raise e => e <> Exception "Invalid syntax"
  | NoFuel => True
  end.
Proof.
  intros Hs. apply no_lparen_skip_ws in Hs.
  destruct (lex s) as [[t s']|e|] eqn:Hlex; auto.
  - unfold lex, lex_head in Hlex.
    destruct (skip_ws s) as [|c r] eqn:Hr.
    { injection Hlex as <- <-. split; [discriminate|reflexivity]. }
    pose proof (no_lparen_span_digits _ Hs) as Hspan.
    simpl in Hs. apply andb_true_iff in Hs as [Hc Hs].
    apply negb_true_iff in Hc.
    destruct (isdigit c).
    { destruct (int _); simpl in Hlex; try discriminate.
      injection Hlex as <- <-. split; [discriminate|exact Hspan]. }
    rewrite Hc in Hlex.
    repeat match type of Hlex with
           | context [ascii_eqb c ?k] => destruct (ascii_eqb c k)
           end;
      try discriminate;
      injection Hlex as <- <-; (split; [discriminate|exact Hs]).
  - destruct (lex_raises s e Hlex) as [->| ->]; discriminate.
Qed.

Lemma visit_raises (node : AST) (e : exn) :
  visit node = Raise e ->
  e = ZeroDivisionError \/ e = TypeError
  \/ e = Exception "No visit_NoneType method".
Proof.
  induction node as [|t|lhs IHl op rhs IHr]; simpl.
  - intros [= <-]. auto.
  - discriminate.
  - destruct (type op); try discriminate;
      destruct (visit lhs) as [a| |]; simpl; try discriminate;
      try (intros [= <-]; now apply IHl);
      destruct (visit rhs) as [b| |]; simpl; try discriminate;
      try (intros [= <-]; now apply IHr);
      destruct a, b; simpl; try discriminate;
      try (intros [= <-]; auto).
    destruct (z0 =? 0)%Z; [intros [= <-]; auto|discriminate].
Qed.

(** X11.  "Invalid syntax" is raised for a missing closing parenthesis
    and for nothing else: a text with no opening parenthesis in it never
    ends with it, however ill-formed the text is. *)
Theorem evaluate_no_lparen (text : string) :
  no_lparen (chars text) = true ->
  evaluate text <> Raise (Exception "Invalid syntax").
Proof.
  intros Hno. destruct text as [|c s]; [discriminate|].
  rewrite evaluate_run by discriminate.
  unfold run, Parser_init.
  change (@next_token (list ascii) _) with lex.
  pose proof (lex_inv_no_lparen _ Hno) as Hlex.
  destruct (lex (chars (String c s))) as [[t s']|e|]; simpl;
    [|congruence|discriminate].
  destruct Hlex as [Ht Hs']. unfold interpret, parse.
  pose proof (expr_inv (fun r => no_lparen r = true)
                (fun t => type t <> LPAREN)
                (fun e => e <> Exception "Invalid syntax")
                lex_inv_no_lparen (or_introl (fun t H => H))
                (text_fuel (String c s)) (mkParser s' t) Ht Hs') as Hexpr.
  destruct (expr _ (mkParser s' t)) as [[node q]|e|]; simpl in *;
    [|congruence|discriminate].
  intros Hv. apply visit_raises in Hv.
  destruct Hv as [Hv|[Hv|Hv]]; discriminate.
Qed.

Lemma evaluate_no_lparen_witness :
  evaluate "1 + * 2) )" <> Raise (Exception "Invalid syntax").
Proof.
  apply (evaluate_no_lparen "1 + * 2) )"). reflexivity.
Defined.

(** * The loop of [main] *)

Lemma main_cons_prints (text : string) (v : Value) (inputs : list string) :
  prints text v ->
  main (text :: inputs) = (v :: fst (main inputs), snd (main inputs)).
Proof.
  intros [Hne Hev]. simpl. rewrite Hev.
  destruct text; [congruence|]. now destruct (main inputs).
Qed.

Lemma main_app_prints (pre : list string) (vs : list Value) :
  Forall2 prints pre vs ->
  forall rest,
    main (pre ++ rest) = ((vs ++ fst (main rest))%list, snd (main rest)).
Proof.
  induction 1 as [|text v pre vs Hp Hrest IH]; intros rest.
  - simpl. now destruct (main rest).
  - cbn [List.app]. rewrite (main_cons_prints text v _ Hp), IH. reflexivity.
Qed.

(** X12.  [main] prints the value of each line, in order, as long as
    the lines are not empty and evaluate to a value, and goes on with
    the lines that follow.  It stops at the first empty line with
    [sys.exit()], at the first line that raises with that exception, and
    at the end of the input by leaving the loop; what comes after an
    empty or a failing line is never read. *)
Theorem main_prints (pre : list string) (vs : list Value) :
  Forall2 prints pre vs ->
  (forall rest,
     main (pre ++ rest) = ((vs ++ fst (main rest))%list, snd (main rest)))
  /\ main pre = (vs, Returned)
  /\ (forall rest, main (pre ++ "" :: rest) = (vs, Exited))
  /\ (forall bad e rest,
        bad <> "" -> evaluate bad = Raise e ->
        main (pre ++ bad :: rest) = (vs, Crashed e)).
Proof.
  intros Hpre. pose proof (main_app_prints pre vs Hpre) as Happ.
  split; [exact Happ|]. split; [|split].
  - rewrite <- (List.app_nil_r pre), Happ. simpl.
    now rewrite List.app_nil_r.
  - intros rest. rewrite Happ. simpl. now rewrite List.app_nil_r.
  - intros bad e rest Hne Hbad. rewrite Happ. simpl. rewrite Hbad.
    destruct bad; [congruence|]. simpl. now rewrite List.app_nil_r.
Qed.

Lemma main_prints_witness :
  (forall rest,
     main (["1 + 2"; "(3 - 5) * 4"] ++ rest)
     = (([VInt 3; VInt (-8)] ++ fst (main rest))%list, snd (main rest)))
  /\ main ["1 + 2"; "(3 - 5) * 4"] = ([VInt 3; VInt (-8)], Returned)
  /\ (forall rest,
        main (["1 + 2"; "(3 - 5) * 4"] ++ "" :: rest)
        = ([VInt 3; VInt (-8)], Exited))
  /\ (forall bad e rest,
        bad <> "" -> evaluate bad = Raise e ->
        main (["1 + 2"; "(3 - 5) * 4"] ++ bad :: rest)
        = ([VInt 3; VInt (-8)], Crashed e)).
Proof.
  apply (main_prints ["1 + 2"; "(3 - 5) * 4"] [VInt 3; VInt (-8)]).
  repeat constructor; discriminate.
Defined.

(** X13.  Whatever the lines, [main] never ends with the [IndexError]
    of the lexer's constructor, since it leaves before it evaluates an
    empty line, nor with [TypeError]; it always ends; and everything it
    prints is an [int], at most one for each line. *)
Theorem main_never (inputs : list string) :
  snd (main inputs) <> Crashed IndexError
  /\ snd (main inputs) <> Crashed TypeError
  /\ snd (main inputs) <> Unfinished
  /\ Forall (fun v => exists z, v = VInt z) (fst (main inputs))
  /\ List.length (fst (main inputs)) <= List.length inputs.
Proof.
  induction inputs as [|text inputs IH]; simpl.
  - repeat split; try discriminate; auto.
  - pose proof (evaluate_classified text) as Hev.
    destruct text as [|c s]; simpl;
      [repeat split; try discriminate; auto; lia|].
    destruct (evaluate (String c s)) as [v|e|]; [| |contradiction].
    + destruct Hev as [_ Hv].
      destruct (main inputs) as [printed how]; simpl in *.
      destruct IH as (H1 & H2 & H3 & H4 & H5).
      repeat split; auto. lia.
    + simpl. destruct Hev as [[_ Hempty]|[_ He]]; [discriminate|].
      repeat split; try discriminate; auto; try lia.
      all: intros [= ->];
        destruct He as [[He|[He|He]]|[He|He]]; discriminate.
Qed.

(** * One-character tokens *)

Lemma lex_operator (ws : list ascii) (c : ascii) (tok : Token) (r : list ascii) :
  forallb isspace ws = true -> operator_token c = Some tok ->
  lex (ws ++ c :: r) = Ok (tok, r).
Proof.
  intros Hws Hop. rewrite (lex_blanks ws _ Hws). unfold operator_token in Hop.
  repeat match type of Hop with
         | context [ascii_eqb c ?k] =>
             let H := fresh in
             destruct (ascii_eqb c k) eqn:H;
             [apply Ascii.eqb_eq in H; subst c; injection Hop as <-;
              reflexivity|]
         end.
  discriminate.
Qed.

(** X14.  On blanks followed by one of [+ - * / ( )], [get_next_token]
    returns the token of that character and moves the position past the
    blanks and that one character, no further. *)
Theorem get_next_token_operator
  (l : Lexer) (ws : list ascii) (c : ascii) (tok : Token) (r : list ascii) :
  Lexer_wf l ->
  rest l = (ws ++ c :: r)%list ->
  forallb isspace ws = true ->
  operator_token c = Some tok ->
  exists l',
    get_next_token l = Ok (tok, l')
    /\ rest l' = r
    /\ pos l' = pos l + List.length ws + 1.
Proof.
  intros Hwf Hrest Hws Hop.
  pose proof (lex_operator ws c tok r Hws Hop) as Hlex.
  rewrite <- Hrest in Hlex.
  destruct (lex_get_next_token l _ _ Hlex) as (l' & Hget & Hrest').
  exists l'. split; [exact Hget|]. split; [exact Hrest'|].
  destruct (get_next_token_loop_moves _ l l' _ Hwf Hget) as (Hwf' & Ht & Hp).
  pose proof (rest_length_pos l Hwf) as Hl.
  pose proof (rest_length_pos l' Hwf') as Hl'.
  rewrite Hrest in Hl. rewrite Hrest', Ht in Hl'.
  rewrite length_app in Hl. simpl in Hl. lia.
Qed.

Lemma get_next_token_operator_witness :
  exists l',
    get_next_token (mkLexer "2  *(3)" 1 (Some " "%char)) = Ok (MUL_token, l')
    /\ rest l' = ["("%char; "3"%char; ")"%char]
    /\ pos l' = 1 + List.length [" "%char; " "%char] + 1.
Proof.
  apply (get_next_token_operator (mkLexer "2  *(3)" 1 (Some " "%char))
           [" "%char; " "%char] "*"%char MUL_token
           ["("%char; "3"%char; ")"%char]);
    try reflexivity.
  split; [reflexivity|simpl; lia].
Defined.

(** * Printing an expression and reading it back *)

Lemma parse_text_chars (text : string) :
  text <> "" -> parse_text text = parse_chars (text_fuel text) (chars text).
Proof.
  intros Hne. destruct (Lexer_init_rest text Hne) as (l & Hinit & Hrest).
  unfold parse_text, parser_of, parse_chars. rewrite Hinit; cbn [bind].
  apply res_rel_eq.
  apply res_rel_bind with (P := parser_sim has_rest).
  - apply Parser_init_sim; [apply has_rest_sim|exact Hrest].
  - intros p1 p2 Hp. unfold parse.
    apply res_rel_bind with (P := node_sim has_rest).
    + apply expr_sim; [apply has_rest_sim|exact Hp].
    + intros [n1 q1] [n2 q2] [Hn _]; simpl in *. exact Hn.
Qed.

Lemma literal_decimal (n : N) : literal_value (decimal n) = Some (Z.of_N n).
Proof.
  unfold literal_value, decimal.
  rewrite NilZero.usu.
  - simpl. now rewrite DecimalN.Unsigned.of_to.
  - destruct n; [discriminate|apply DecimalPos.Unsigned.to_uint_nonnil].
Qed.

Lemma print_depth (e : Expr) : depth e <= String.length (print e).
Proof.
  induction e as [n|o lhs IHl rhs IHr]; simpl; [lia|].
  rewrite !length_chars, !chars_app, !length_app, <- !length_chars in *.
  lia.
Qed.

Lemma print_nonempty (e : Expr) : print e <> "".
Proof.
  destruct e as [n|o lhs rhs]; [|discriminate].
  apply (literal_nonempty _ _ (literal_decimal n)).
Qed.

Lemma lex_operator_text (o : operator) (r : list ascii) :
  lex (chars (operator_text o) ++ r)
  = Ok (operator_tok o, " "%char :: r).
Proof.
  destruct o; reflexivity.
Qed.

(** [factor] on the text of an expression, whatever follows it. *)
Lemma factor_print (e : Expr) :
  forall (fuel : nat) (r s' : list ascii) (t : Token),
  depth e < fuel ->
  starts_digit r = false ->
  lex r = Ok (t, s') ->
  exists t0 s0,
    lex (chars (print e) ++ r) = Ok (t0, s0)
    /\ factor_with (expr fuel) (mkParser s0 t0)
       = Ok (tree_of e, mkParser s' t).
Proof.
  induction e as [n|o lhs IHl rhs IHr]; intros fuel r s' t Hfuel Hr Hlex.
  - exists (INTEGER_token (Z.of_N n)), r.
    split; [apply lex_literal; [apply literal_decimal|exact Hr]|].
    now apply factor_INTEGER.
  - destruct fuel as [|fuel]; [lia|]. simpl in Hfuel.
    (* the right operand, up to the closing parenthesis *)
    destruct (IHr fuel (")"%char :: r) r RPAREN_token
                ltac:(lia) eq_refl (lex_rparen r))
      as (t2 & s2 & Hlex2 & Hfac2).
    (* the left operand, up to the operator *)
    destruct (IHl fuel
                (chars (operator_text o) ++ chars (print rhs) ++ ")"%char :: r)%list
                (" "%char :: chars (print rhs) ++ ")"%char :: r)%list
                (operator_tok o) ltac:(lia))
      as (t1 & s1 & Hlex1 & Hfac1);
      [now destruct o|apply lex_operator_text|].
    assert (Hblank : lex (" "%char :: chars (print rhs) ++ ")"%char :: r)
                     = Ok (t2, s2))
      by (now rewrite lex_blank).
    exists LPAREN_token,
      (chars (print lhs) ++ chars (operator_text o)
       ++ chars (print rhs) ++ ")"%char :: r)%list.
    split.
    + simpl print. rewrite chars_cons, !chars_app.
      change (chars ")") with [")"%char]. cbn [List.app].
      rewrite <- !List.app_assoc. apply lex_lparen.
    + rewrite (factor_LPAREN _ _ _ LPAREN_token t1 eq_refl Hlex1).
      rewrite expr_S. unfold expr_with, term_with. rewrite Hfac1.
      cbn [bind].
      destruct fuel as [|fuel']; [lia|].
      destruct o; cbn [operator_tok] in *.
      * rewrite term_loop_exit by discriminate. cbn [bind].
        rewrite (expr_loop_step _ _ _ _ _ PLUS_token t2
                   (or_introl eq_refl) Hblank).
        unfold term_with. rewrite Hfac2. cbn [bind].
        rewrite term_loop_exit by discriminate. cbn [bind].
        rewrite expr_loop_exit by discriminate. cbn [bind].
        now rewrite (eat_step RPAREN r s' RPAREN_token t eq_refl Hlex).
      * rewrite term_loop_exit by discriminate. cbn [bind].
        rewrite (expr_loop_step _ _ _ _ _ MINUS_token t2
                   (or_intror eq_refl) Hblank).
        unfold term_with. rewrite Hfac2. cbn [bind].
        rewrite term_loop_exit by discriminate. cbn [bind].
        rewrite expr_loop_exit by discriminate. cbn [bind].
        now rewrite (eat_step RPAREN r s' RPAREN_token t eq_refl Hlex).
      * rewrite (term_loop_step _ _ _ _ _ MUL_token t2
                   (or_introl eq_refl) Hblank).
        rewrite Hfac2. cbn [bind].
        rewrite term_loop_exit by discriminate. cbn [bind].
        rewrite expr_loop_exit by discriminate. cbn [bind].
        now rewrite (eat_step RPAREN r s' RPAREN_token t eq_refl Hlex).
      * rewrite (term_loop_step _ _ _ _ _ DIV_token t2
                   (or_intror eq_refl) Hblank).
        rewrite Hfac2. cbn [bind].
        rewrite term_loop_exit by discriminate. cbn [bind].
        rewrite expr_loop_exit by discriminate. cbn [bind].
        now rewrite (eat_step RPAREN r s' RPAREN_token t eq_refl Hlex).
Qed.

Lemma expr_print (e : Expr) (fuel : nat) :
  depth e < fuel ->
  exists p0,
    Parser_init (chars (print e)) = Ok p0
    /\ expr (S fuel) p0 = Ok (tree_of e, mkParser [] EOF_token).
Proof.
  intros Hfuel.
  destruct (factor_print e fuel [] [] EOF_token Hfuel eq_refl lex_nil)
    as (t0 & s0 & Hlex0 & Hfac).
  rewrite List.app_nil_r in Hlex0.
  exists (mkParser s0 t0). split.
  - unfold Parser_init. change (@next_token (list ascii) _) with lex.
    now rewrite Hlex0.
  - rewrite expr_S. unfold expr_with, term_with. rewrite Hfac. cbn [bind].
    rewrite term_loop_exit by discriminate. cbn [bind].
    now rewrite expr_loop_exit by discriminate.
Qed.

Lemma visit_tree_of (e : Expr) :
  visit (tree_of e)
  = match value_of e with
    | Some z => Ok (VInt z)
    | None => Raise ZeroDivisionError
    end.
Proof.
  induction e as [n|o lhs IHl rhs IHr]; [reflexivity|].
  destruct o; simpl; rewrite IHl, IHr;
    destruct (value_of lhs) as [a|], (value_of rhs) as [b|];
    simpl; try reflexivity.
  now destruct (b =? 0)%Z.
Qed.

(** X15.  Writing an expression with every operation in parentheses
    and reading the text back gives the tree of the expression, and
    [evaluate] on the text gives its value, or [ZeroDivisionError] when
    a divisor in it is zero.  This is the program with the recursion
    limit of the host aside, which the model does not have: an
    expression nested deeper than that limit allows ends the run of the
    host with [RecursionError] instead. *)
Theorem print_parse (e : Expr) :
  parse_text (print e) = Ok (tree_of e)
  /\ evaluate (print e)
     = match value_of e with
       | Some z => Ok (VInt z)
       | None => Raise ZeroDivisionError
       end.
Proof.
  pose proof (print_depth e) as Hdepth.
  destruct (expr_print e (S (String.length (print e))) ltac:(lia))
    as (p0 & Hinit & Hexpr).
  split.
  - rewrite parse_text_chars by apply print_nonempty.
    unfold parse_chars, parse, text_fuel. cbn [Nat.add].
    now rewrite Hinit; cbn [bind]; rewrite Hexpr.
  - rewrite evaluate_run by apply print_nonempty.
    unfold run, interpret, parse, text_fuel. cbn [Nat.add].
    rewrite Hinit; cbn [bind]; rewrite Hexpr; cbn [bind].
    apply visit_tree_of.
Qed.

(** * The tree behind a value *)

(** X16.  When [evaluate] returns a value, the tree the parser built
    has no [None] in it, and the value is the value of that tree: the
    partial trees the parser can return never evaluate to a value. *)
Theorem evaluate_value_complete (text : string) (v : Value) :
  evaluate text = Ok v ->
  exists tree,
    parse_text text = Ok tree
    /\ complete tree = true
    /\ visit tree = Ok v.
Proof.
  intros Hev. pose proof (evaluate_classified text) as Hcl.
  rewrite Hev in Hcl. destruct Hcl as [_ [z ->]].
  unfold evaluate, evaluate_with, interpret in Hev.
  unfold parse_text, parser_of.
  destruct (Lexer_init text) as [l| |]; cbn [bind] in *; try discriminate.
  destruct (Parser_init l) as [p| |]; cbn [bind] in *; try discriminate.
  destruct (parse (text_fuel text) p) as [[tree q]| |]; cbn [bind] in *;
    try discriminate.
  exists tree. split; [reflexivity|]. split; [|exact Hev].
  apply (visit_value_complete tree (VInt z) Hev). discriminate.
Qed.

Lemma evaluate_value_complete_witness :
  exists tree,
    parse_text "(1 + 2) * 3" = Ok tree
    /\ complete tree = true
    /\ visit tree = Ok (VInt 9).
Proof.
  apply (evaluate_value_complete "(1 + 2) * 3" (VInt 9)). reflexivity.
Defined.

(** * Tokens after a complete expression *)

Lemma ends_digit_tail (c : ascii) (s : list ascii) (b : bool) :
  ends_digit (c :: s) && b = false -> ends_digit s && b = false.
Proof.
  destruct s as [|d s]; [reflexivity|]. simpl. auto.
Qed.

Lemma ends_digit_skip_ws (s : list ascii) (b : bool) :
  ends_digit s && b = false -> ends_digit (skip_ws s) && b = false.
Proof.
  induction s as [|c s IH]; [auto|].
  intros Hs. cbn [skip_ws]. destruct (isspace c); [|exact Hs].
  apply IH. now apply (ends_digit_tail c).
Qed.

Lemma ends_digit_span_digits (s : list ascii) (b : bool) :
  ends_digit s && b = false ->
  ends_digit (snd (span_digits s)) && b = false.
Proof.
  induction s as [|c s IH]; [auto|].
  intros Hs. cbn [span_digits]. destruct (isdigit c); [|exact Hs].
  apply (ends_digit_tail c) in Hs. apply IH in Hs.
  now destruct (span_digits s).
Qed.

Lemma skip_ws_app_token (s r : list ascii) (c : ascii) (s' : list ascii) :
  skip_ws s = c :: s' -> skip_ws (s ++ r) = (c :: s' ++ r)%list.
Proof.
  induction s as [|d s IH]; [discriminate|].
  cbn [skip_ws List.app]. destruct (isspace d); [exact IH|].
  now intros [= -> ->].
Qed.

Lemma skip_ws_app_end (s r : list ascii) :
  skip_ws s = [] -> skip_ws (s ++ r) = skip_ws r.
Proof.
  induction s as [|d s IH]; [reflexivity|].
  cbn [skip_ws List.app]. destruct (isspace d); [exact IH|discriminate].
Qed.

Lemma span_digits_cons (c : ascii) (s : list ascii) :
  span_digits (c :: s)
  = if isdigit c
    then (c :: fst (span_digits s), snd (span_digits s))
    else ([], c :: s).
Proof.
  simpl. destruct (isdigit c); [|reflexivity]. now destruct (span_digits s).
Qed.

Lemma span_digits_app_more (c : ascii) (s r : list ascii) :
  ends_digit (c :: s) && starts_digit r = false ->
  span_digits ((c :: s) ++ r)
  = (fst (span_digits (c :: s)), (snd (span_digits (c :: s)) ++ r)%list).
Proof.
  revert c. induction s as [|d s IH]; intros c Hj.
  - cbn [List.app]. rewrite !span_digits_cons.
    cbn [ends_digit] in Hj.
    destruct (isdigit c); [|reflexivity].
    simpl in Hj. now rewrite (span_digits_other r Hj).
  - change ((c :: d :: s) ++ r)%list with (c :: ((d :: s) ++ r))%list.
    rewrite (span_digits_cons c ((d :: s) ++ r)),
            (span_digits_cons c (d :: s)).
    destruct (isdigit c); [|reflexivity].
    now rewrite (IH d) by (now apply (ends_digit_tail c)).
Qed.

(** A token of [s] other than [EOF] is the token of [s] with [r]
    behind it, and what is left is what was left with [r] behind it. *)
Lemma lex_app_token (s r : list ascii) (t : Token) (s' : list ascii) :
  ends_digit s && starts_digit r = false ->
  lex s = Ok (t, s') -> type t <> EOF ->
  lex (s ++ r) = Ok (t, (s' ++ r)%list)
  /\ ends_digit s' && starts_digit r = false.
Proof.
  intros Hj Hlex Hne. apply ends_digit_skip_ws in Hj.
  unfold lex in *. destruct (skip_ws s) as [|c rest] eqn:Hskip.
  { injection Hlex as <- _. now destruct Hne. }
  rewrite (skip_ws_app_token s r c rest Hskip).
  change (c :: rest ++ r)%list with ((c :: rest) ++ r)%list.
  unfold lex_head in *. cbn [List.app].
  change (c :: rest ++ r)%list with ((c :: rest) ++ r)%list.
  destruct (isdigit c).
  - rewrite (span_digits_app_more c rest r Hj). cbn [fst snd].
    destruct (int _) as [n| |]; cbn [bind] in *; try discriminate.
    injection Hlex as <- <-. split; [reflexivity|].
    exact (ends_digit_span_digits (c :: rest) _ Hj).
  - apply (ends_digit_tail c) in Hj.
    repeat match type of Hlex with
           | context [ascii_eqb c ?k] => destruct (ascii_eqb c k)
           end;
      try discriminate;
      injection Hlex as <- <-; (split; [reflexivity|exact Hj]).
Qed.

(** At the end of [s] the next token is the first token of [r]. *)
Lemma lex_app_end (s r : list ascii) (t : Token) (s' : list ascii) :
  lex s = Ok (t, s') -> type t = EOF -> lex (s ++ r) = lex r.
Proof.
  intros Hlex Heof. unfold lex in *.
  destruct (skip_ws s) as [|c rest] eqn:Hskip.
  - now rewrite (skip_ws_app_end s r Hskip).
  - exfalso. unfold lex_head in Hlex.
    destruct (isdigit c).
    { destruct (int _); simpl in Hlex; try discriminate.
      injection Hlex as <- _. discriminate. }
    repeat match type of Hlex with
           | context [ascii_eqb c ?k] => destruct (ascii_eqb c k)
           end;
      try discriminate; injection Hlex as <- _; discriminate.
Qed.

Section Trailing.

Variable r : list ascii.
Variable t_r : Token.
Variable r' : list ascii.
Hypothesis lex_r : lex r = Ok (t_r, r').
Hypothesis t_r_plus : type t_r <> PLUS.
Hypothesis t_r_minus : type t_r <> MINUS.
Hypothesis t_r_mul : type t_r <> MUL.
Hypothesis t_r_div : type t_r <> DIV.

Lemma eat_trail (token_type : TokenType) (p1 p2 q1 : Parser (list ascii)) :
  token_type <> EOF ->
  trail_rel r t_r r' p1 p2 ->
  eat token_type p1 = Ok q1 ->
  exists q2, eat token_type p2 = Ok q2 /\ trail_rel r t_r r' q1 q2.
Proof.
  intros Hne [(Htok & Hneof & Hlexer & Hj)|(Heof & Hp2)] Heat;
    unfold eat in *.
  - rewrite Htok.
    destruct (TokenType_eqb (type (current_token p1)) token_type);
      [|discriminate].
    change (next_token (lexer p1)) with (lex (lexer p1)) in Heat.
    change (next_token (lexer p2)) with (lex (lexer p2)).
    rewrite Hlexer.
    destruct (lex (lexer p1)) as [[t s']| |] eqn:Hlex; simpl in Heat;
      try discriminate.
    injection Heat as <-.
    destruct (type t) eqn:Hty.
    8:{ rewrite (lex_app_end _ r t s' Hlex Hty), lex_r. cbn [bind].
        eexists; split; [reflexivity|]. right. now split. }
    all: destruct (lex_app_token _ r t s' Hj Hlex) as [Happ Hj'];
      [congruence|];
      rewrite Happ; cbn [bind];
      eexists; split; [reflexivity|];
      left; cbn [current_token lexer]; repeat split; auto; congruence.
  - rewrite Heof in Heat. destruct token_type; try discriminate.
    now destruct Hne.
Qed.

Section TrailRules.

Variable e : Parser (list ascii) -> res (AST * Parser (list ascii)).
Hypothesis rec_trail : trails r t_r r' e.

Lemma factor_with_trail : trails r t_r r' (factor_with e).
Proof.
  intros p1 p2 node q1 Hrel Hfac Hnode. unfold factor_with in *.
  assert (Htok : type (current_token p1) = INTEGER
                 \/ type (current_token p1) = LPAREN ->
                 current_token p2 = current_token p1).
  { destruct Hrel as [(Htok & _)|(Heof & _)]; [auto|].
    rewrite Heof. intros [|]; discriminate. }
  destruct (type (current_token p1)) eqn:Hty;
    try (injection Hfac as <- _; discriminate).
  - rewrite (Htok (or_introl eq_refl)), Hty.
    destruct (eat INTEGER p1) as [q| |] eqn:Heat; simpl in Hfac;
      try discriminate.
    injection Hfac as <- <-.
    destruct (eat_trail INTEGER p1 p2 q ltac:(discriminate) Hrel Heat)
      as (q2 & Heat2 & Hrel2).
    rewrite Heat2. cbn [bind]. now exists q2.
  - rewrite (Htok (or_intror eq_refl)), Hty.
    destruct (eat LPAREN p1) as [q| |] eqn:Heat; simpl in Hfac;
      try discriminate.
    destruct (eat_trail LPAREN p1 p2 q ltac:(discriminate) Hrel Heat)
      as (q2 & Heat2 & Hrel2).
    rewrite Heat2. cbn [bind].
    destruct (e q) as [[n1 qa]| |] eqn:He; simpl in Hfac; try discriminate.
    destruct (eat RPAREN qa) as [qb| |] eqn:Hclose; simpl in Hfac;
      try discriminate.
    injection Hfac as <- <-.
    destruct (rec_trail q q2 n1 qa Hrel2 He Hnode) as (qa2 & He2 & Hrela).
    rewrite He2. cbn [bind].
    destruct (eat_trail RPAREN qa qa2 qb ltac:(discriminate) Hrela Hclose)
      as (qb2 & Hclose2 & Hrelb).
    rewrite Hclose2. cbn [bind]. now exists qb2.
Qed.

Lemma term_loop_complete (fuel : nat) :
  forall (node t : AST) (p q : Parser (list ascii)),
  term_loop e fuel node p = Ok (t, q) ->
  complete t = true -> complete node = true.
Proof.
  induction fuel as [|fuel IH]; intros node t p q; simpl; [discriminate|].
  destruct (type (current_token p));
    try (intros [= <- _]; auto).
  all: destruct (eat _ p) as [p'| |]; simpl; try discriminate;
    destruct (factor_with e p') as [[rhs p'']| |]; simpl; try discriminate;
    intros Hloop Ht; apply IH in Hloop; auto;
    simpl in Hloop; now apply andb_true_iff in Hloop.
Qed.

Lemma term_loop_trail (fuel : nat) :
  forall node, trails r t_r r' (term_loop e fuel node).
Proof.
  induction fuel as [|fuel IH]; intros node p1 p2 t q1 Hrel Hloop Ht;
    [discriminate|].
  cbn [term_loop] in *.
  destruct Hrel as [(Htok & Hneof & Hlexer & Hj)|(Heof & Hp2)].
  2:{ rewrite Heof in Hloop. injection Hloop as <- <-.
      subst p2. cbn [current_token].
      exists (mkParser r' t_r). split; [|right; now split].
      destruct (type t_r); congruence. }
  assert (Hrel : trail_rel r t_r r' p1 p2) by (left; auto).
  rewrite Htok.
  destruct (type (current_token p1)) eqn:Hty;
    try (injection Hloop as <- <-; exists p2; split; [reflexivity|exact Hrel]).
  all: match type of Hloop with
       | context [eat ?tt ?pa] =>
           destruct (eat tt pa) as [q| |] eqn:Heat; cbn [bind] in Hloop;
           try discriminate;
           destruct (eat_trail tt p1 p2 q ltac:(discriminate) Hrel Heat)
             as (q2 & Heat2 & Hrel2)
       end;
    rewrite Heat2; cbn [bind];
    destruct (factor_with e q) as [[rhs qa]| |] eqn:Hfac; cbn [bind] in Hloop;
    try discriminate;
    pose proof (term_loop_complete _ _ _ _ _ Hloop Ht) as Hacc;
    simpl in Hacc; apply andb_true_iff in Hacc as [_ Hrhs];
    destruct (factor_with_trail q q2 rhs qa Hrel2 Hfac Hrhs)
      as (qa2 & Hfac2 & Hrela);
    rewrite Hfac2; cbn [bind];
    exact (IH _ qa qa2 t q1 Hrela Hloop Ht).
Qed.

Lemma term_with_trail (fuel : nat) : trails r t_r r' (term_with e fuel).
Proof.
  intros p1 p2 t q1 Hrel Hterm Ht. unfold term_with in *.
  destruct (factor_with e p1) as [[node qa]| |] eqn:Hfac; simpl in Hterm;
    try discriminate.
  pose proof (term_loop_complete _ _ _ _ _ Hterm Ht) as Hnode.
  destruct (factor_with_trail p1 p2 node qa Hrel Hfac Hnode)
    as (qa2 & Hfac2 & Hrela).
  rewrite Hfac2. cbn [bind].
  exact (term_loop_trail fuel node qa qa2 t q1 Hrela Hterm Ht).
Qed.

Lemma expr_loop_complete (fuel : nat) :
  forall (node t : AST) (p q : Parser (list ascii)),
  expr_loop e fuel node p = Ok (t, q) ->
  complete t = true -> complete node = true.
Proof.
  induction fuel as [|fuel IH]; intros node t p q; simpl; [discriminate|].
  destruct (type (current_token p));
    try (intros [= <- _]; auto).
  all: destruct (eat _ p) as [p'| |]; simpl; try discriminate;
    destruct (term_with e (S fuel) p') as [[rhs p'']| |]; simpl;
    try discriminate;
    intros Hloop Ht; apply IH in Hloop; auto;
    simpl in Hloop; now apply andb_true_iff in Hloop.
Qed.

Lemma expr_loop_trail (fuel : nat) :
  forall node, trails r t_r r' (expr_loop e fuel node).
Proof.
  induction fuel as [|fuel IH]; intros node p1 p2 t q1 Hrel Hloop Ht;
    [discriminate|].
  cbn [expr_loop] in *.
  destruct Hrel as [(Htok & Hneof & Hlexer & Hj)|(Heof & Hp2)].
  2:{ rewrite Heof in Hloop. injection Hloop as <- <-.
      subst p2. cbn [current_token].
      exists (mkParser r' t_r). split; [|right; now split].
      destruct (type t_r); congruence. }
  assert (Hrel : trail_rel r t_r r' p1 p2) by (left; auto).
  rewrite Htok.
  destruct (type (current_token p1)) eqn:Hty;
    try (injection Hloop as <- <-; exists p2; split; [reflexivity|exact Hrel]).
  all: match type of Hloop with
       | context [eat ?tt ?pa] =>
           destruct (eat tt pa) as [q| |] eqn:Heat; cbn [bind] in Hloop;
           try discriminate;
           destruct (eat_trail tt p1 p2 q ltac:(discriminate) Hrel Heat)
             as (q2 & Heat2 & Hrel2)
       end;
    rewrite Heat2; cbn [bind];
    destruct (term_with e (S fuel) q) as [[rhs qa]| |] eqn:Hterm;
    cbn [bind] in Hloop; try discriminate;
    pose proof (expr_loop_complete _ _ _ _ _ Hloop Ht) as Hacc;
    simpl in Hacc; apply andb_true_iff in Hacc as [_ Hrhs];
    destruct (term_with_trail (S fuel) q q2 rhs qa Hrel2 Hterm Hrhs)
      as (qa2 & Hterm2 & Hrela);
    rewrite Hterm2; cbn [bind];
    exact (IH _ qa qa2 t q1 Hrela Hloop Ht).
Qed.

Lemma expr_with_trail (fuel : nat) : trails r t_r r' (expr_with e fuel).
Proof.
  intros p1 p2 t q1 Hrel Hexpr Ht. unfold expr_with in *.
  destruct (term_with e fuel p1) as [[node qa]| |] eqn:Hterm; simpl in Hexpr;
    try discriminate.
  pose proof (expr_loop_complete _ _ _ _ _ Hexpr Ht) as Hnode.
  destruct (term_with_trail fuel p1 p2 node qa Hrel Hterm Hnode)
    as (qa2 & Hterm2 & Hrela).
  rewrite Hterm2. cbn [bind].
  exact (expr_loop_trail fuel node qa qa2 t q1 Hrela Hexpr Ht).
Qed.

End TrailRules.

Lemma expr_trail (fuel : nat) : trails r t_r r' (expr fuel).
Proof.
  induction fuel as [|fuel IH]; [intros p1 p2 node q1 _; discriminate|].
  cbn [expr]. now apply expr_with_trail.
Qed.

End Trailing.

Lemma skip_ws_nil_blank (s : list ascii) :
  skip_ws s = [] -> forallb isspace s = true.
Proof.
  induction s as [|c s IH]; cbn [skip_ws forallb]; [reflexivity|].
  destruct (isspace c); [exact IH|discriminate].
Qed.

(** The lexer answers [EOF] on blank text only. *)
Lemma lex_EOF_blank (s : list ascii) (t : Token) (s' : list ascii) :
  lex s = Ok (t, s') -> type t = EOF -> forallb isspace s = true.
Proof.
  intros Hlex Heof. apply skip_ws_nil_blank.
  unfold lex in Hlex. destruct (skip_ws s) as [|c rest]; [reflexivity|].
  exfalso. unfold lex_head in Hlex.
  destruct (isdigit c).
  { destruct (int _); simpl in Hlex; try discriminate.
    injection Hlex as <- _. discriminate. }
  repeat match type of Hlex with
         | context [ascii_eqb c ?k] => destruct (ascii_eqb c k)
         end;
    try discriminate; injection Hlex as <- _; discriminate.
Qed.

(** The parser built on [s ++ r] is in step with the one built on [s]. *)
Lemma Parser_init_trail (s r : list ascii) (t_r : Token) (r' : list ascii)
  (p1 : Parser (list ascii)) :
  lex r = Ok (t_r, r') ->
  ends_digit s && starts_digit r = false ->
  Parser_init s = Ok p1 ->
  exists p2, Parser_init (s ++ r)%list = Ok p2 /\ trail_rel r t_r r' p1 p2.
Proof.
  intros Hr Hj Hinit. unfold Parser_init in *.
  change (next_token s) with (lex s) in Hinit.
  change (next_token (s ++ r)%list) with (lex (s ++ r)%list).
  destruct (lex s) as [[t s']| |] eqn:Hs; cbn [bind] in Hinit;
    try discriminate.
  injection Hinit as <-.
  destruct (type t) eqn:Hty.
  8:{ rewrite (lex_app_end s r t s' Hs Hty), Hr. cbn [bind].
      eexists; split; [reflexivity|]. right. now split. }
  all: destruct (lex_app_token s r t s' Hj Hs) as [Happ Hj'];
    [congruence|];
    rewrite Happ; cbn [bind];
    eexists; split; [reflexivity|];
    left; cbn [current_token lexer]; repeat split; auto; congruence.
Qed.

(** The tree of a complete expression is the tree of the text with [r]
    behind it, and the parser stops at the end of the text only when [r]
    is blank. *)
Lemma parse_trailing (s r : list ascii) (fuel fuel' : nat)
  (p1 : Parser (list ascii)) (node : AST) (q1 : Parser (list ascii)) :
  starts_no_operator r = true ->
  ends_digit s && starts_digit r = false ->
  Parser_init s = Ok p1 ->
  expr fuel p1 = Ok (node, q1) ->
  complete node = true ->
  fuel <= fuel' ->
  exists p2 q2,
    Parser_init (s ++ r)%list = Ok p2
    /\ expr fuel' p2 = Ok (node, q2)
    /\ (type (current_token q2) = EOF -> forallb isspace r = true).
Proof.
  intros Hr Hj Hinit Hexpr Hnode Hle.
  unfold starts_no_operator in Hr.
  destruct (lex r) as [[t_r r']| |] eqn:Hlex; try discriminate.
  destruct (Parser_init_trail s r t_r r' p1 Hlex Hj Hinit)
    as (p2 & Hinit2 & Hrel).
  assert (Hexpr2 : exists q2, expr fuel p2 = Ok (node, q2)
                              /\ trail_rel r t_r r' q1 q2).
  { apply (expr_trail r t_r r') with (p1 := p1); auto;
      intros Hty; rewrite Hty in Hr; discriminate. }
  destruct Hexpr2 as (q2 & Hexpr2 & Hrelq).
  exists p2, q2. split; [exact Hinit2|]. split.
  - destruct (expr_mono fuel fuel' p2 Hle) as [Hno|Heq]; congruence.
  - intros Heof. destruct Hrelq as [(Htok & Hneof & _)|(_ & ->)].
    + rewrite Htok in Heof. contradiction.
    + exact (lex_EOF_blank r t_r r' Hlex Heof).
Qed.

(** What the parser of the program returns on a text, read off the run
    on the characters of the text. *)
Lemma parse_text_lookahead (text : string) (p : Parser (list ascii))
  (node : AST) (q : Parser (list ascii)) :
  text <> "" ->
  Parser_init (chars text) = Ok p ->
  expr (text_fuel text) p = Ok (node, q) ->
  parse_text text = Ok node
  /\ lookahead_after_parse text = Ok (current_token q).
Proof.
  intros Hne Hinit Hexpr.
  destruct (Lexer_init_rest text Hne) as (l & Hl & Hrest).
  unfold parse_text, lookahead_after_parse, parser_of.
  rewrite Hl; cbn [bind].
  assert (Hsim : res_rel (parser_sim has_rest)
                   (Parser_init l) (Parser_init (chars text)))
    by (apply Parser_init_sim; [apply has_rest_sim|exact Hrest]).
  rewrite Hinit in Hsim.
  destruct (Parser_init l) as [pl| |]; unfold res_rel in Hsim;
    try contradiction.
  cbn [bind]. unfold parse.
  assert (Hsim2 : res_rel (node_sim has_rest)
                    (expr (text_fuel text) pl) (expr (text_fuel text) p))
    by (apply expr_sim; [apply has_rest_sim|exact Hsim]).
  rewrite Hexpr in Hsim2.
  destruct (expr (text_fuel text) pl) as [[n ql]| |]; unfold res_rel in Hsim2;
    try contradiction.
  destruct Hsim2 as [Hn [Htok _]]. cbn [fst snd] in Hn, Htok.
  cbn [bind]. now rewrite Hn, Htok.
Qed.

Lemma text_fuel_app (s r : string) : text_fuel s <= text_fuel (s ++ r).
Proof.
  unfold text_fuel. rewrite !length_chars, chars_app, List.length_app. lia.
Qed.

(** C10.  [parse] is [expr] and nothing checks that the parser has
    reached the end of the text when it returns.  Take any text [s] that
    evaluates to a value, and put behind it any text [r] whose first
    token is not one of the four operators (an integer, a parenthesis, or
    nothing but blanks), without joining two runs of digits.  Then the
    whole text evaluates to the value of [s] and parses to the tree of
    [s]; [r] is not rejected, and unless [r] is blank the parser returns
    while looking at a token that is not [EOF].  So ["1 2"] evaluates to
    1, ["1 + 2 3"] to 3 and ["(1))"] to 1.  (The recursion limit of the
    host is not part of the model.) *)
Theorem trailing_tokens_ignored (s r : string) (v : Value) :
  evaluate s = Ok v ->
  starts_no_operator (chars r) = true ->
  ends_digit (chars s) && starts_digit (chars r) = false ->
  evaluate (s ++ r) = Ok v
  /\ parse_text (s ++ r) = parse_text s
  /\ exists t : Token,
       lookahead_after_parse (s ++ r) = Ok t
       /\ (type t = EOF -> forallb isspace (chars r) = true).
Proof.
  intros Hev Hr Hj.
  assert (Hs : s <> "") by (intros ->; vm_compute in Hev; discriminate).
  assert (Hsr : s ++ r <> "") by now apply string_nonempty_app.
  pose proof (run_outcomes (text_fuel s) (chars s)) as Hout.
  rewrite (evaluate_run s Hs) in Hev. rewrite Hev in Hout.
  destruct Hout as [z ->].
  unfold run in Hev.
  destruct (Parser_init (chars s)) as [p1| |] eqn:Hinit; cbn [bind] in Hev;
    try discriminate.
  unfold interpret, parse in Hev.
  destruct (expr (text_fuel s) p1) as [[node q1]| |] eqn:Hexpr;
    cbn [bind] in Hev; try discriminate.
  assert (Hnode : complete node = true)
    by (apply (visit_value_complete node (VInt z) Hev); discriminate).
  destruct (parse_trailing (chars s) (chars r) (text_fuel s)
              (text_fuel (s ++ r)) p1 node q1 Hr Hj Hinit Hexpr Hnode
              (text_fuel_app s r))
    as (p2 & q2 & Hinit2 & Hexpr2 & Hlook).
  rewrite <- chars_app in Hinit2.
  destruct (parse_text_lookahead s p1 node q1 Hs Hinit Hexpr) as [Htree _].
  destruct (parse_text_lookahead (s ++ r) p2 node q2 Hsr Hinit2 Hexpr2)
    as [Htree2 Hlook2].
  split; [|split].
  - rewrite (evaluate_run _ Hsr). unfold run. rewrite Hinit2. cbn [bind].
    unfold interpret, parse. rewrite Hexpr2. cbn [bind]. exact Hev.
  - now rewrite Htree, Htree2.
  - exists (current_token q2). split; [exact Hlook2|exact Hlook].
Qed.

Lemma trailing_tokens_ignored_witness :
  evaluate "1 2" = Ok (VInt 1)
  /\ parse_text "1 2" = parse_text "1"
  /\ exists t : Token,
       lookahead_after_parse "1 2" = Ok t
       /\ (type t = EOF -> forallb isspace (chars " 2") = true).
Proof.
  apply (trailing_tokens_ignored "1" " 2" (VInt 1)); reflexivity.
Defined.
